(** * rudder-server: router manager, error stash and job-queue dispatch

    A shallow embedding of the parts of the server that the specification
    of the router subsystem talks about, and the properties the
    specification states about them:

    - [router/manager/manager.go]: [monitorDestRouters], the loop that
      starts one router or batch router per destination definition;
    - [processor/stash/stash.go]: the error stash ([readErrJobsLoop],
      [storeErrorsToObjectStorage], [setErrJobStatus]);
    - [jobsdb/datamanager.go]: [Store] and [getQueueForCustomer];
    - the retry/abort policy of the router for expired jobs, whose code
      is outside the sources at hand and is modelled from the
      specification and from the router test that exercises it.

    Part I holds the model, Part II the theorems. *)

From stdpp Require Import base gmap strings list pretty.
From Stdlib Require Import ZArith Lia.

Local Open Scope Z_scope.

(* ===================================================================== *)
(** * Part I: the model *)
(* ===================================================================== *)

(** ** Go's [int] and [int64]

    Both are 64 bits wide on the platforms the server is built for.
    Arithmetic wraps around (two's complement). *)
Module GoInt.

Definition min_int : Z := - 2 ^ 63.
Definition max_int : Z := 2 ^ 63 - 1.

Definition in_range (z : Z) : Prop := min_int <= z <= max_int.

Definition wrap (z : Z) : Z := (z + 2 ^ 63) mod 2 ^ 64 - 2 ^ 63.

Definition add (x y : Z) : Z := wrap (x + y).
Definition sub (x y : Z) : Z := wrap (x - y).

(** [len(l)] *)
Definition len {A} (l : list A) : Z := Z.of_nat (length l).

End GoInt.

(** ** Panics, and a writer/error monad for code with effects

    A computation leaves a trace of the calls it made on its
    collaborators and either returns a value or panics. *)

Inductive panic : Type :=
  | IndexOutOfRange
  | NilDereference
  | TypeAssertion
  | PanicError (err : string)
  | PanicMsg (msg : string).

Inductive result (A : Type) : Type :=
  | Ok (a : A)
  | Panicked (p : panic).
Arguments Ok {A} a.
Arguments Panicked {A} p.

Definition M (E A : Type) : Type := (list E * result A)%type.

Definition ret {E A} (a : A) : M E A := ([], Ok a).

Definition bind {E A B} (c : M E A) (k : A -> M E B) : M E B :=
  match c with
  | (tr, Ok a) => let (tr', r) := k a in (tr ++ tr', r)
  | (tr, Panicked p) => (tr, Panicked p)
  end.

Definition emit {E} (e : E) : M E unit := ([e], Ok tt).

Definition raise {E A} (p : panic) : M E A := ([], Panicked p).

(** [if err != nil { panic(err) }] *)
Definition check {E} (err : option string) : M E unit :=
  match err with
  | None => ret tt
  | Some e => raise (PanicError e)
  end.

(** [v, err := f(); if err != nil { panic(err) }] *)
Definition must {E A} (r : A + string) : M E A :=
  match r with
  | inl a => ret a
  | inr e => raise (PanicError e)
  end.

(** [defer f()], registered before [body] runs: [f] runs when the
    function returns and also when it panics. *)
Definition defer {E A} (e : E) (body : M E A) : M E A :=
  let (tr, r) := body in (tr ++ [e], r).

Notation "x <- c ;; k" := (bind c (fun x => k))
  (at level 20, c at level 99, k at level 200, only parsing).
Notation "'do' c ;; k" := (bind c (fun _ => k))
  (at level 20, c at level 99, k at level 200, only parsing).

(** The double quote character, for JSON literals. *)
Definition dq : string := String (Ascii.ascii_of_nat 34) EmptyString.

(** ** jobsdb: jobs and job statuses *)
Module Jobsdb.

(** Modelled from the spec: the job states ([jobsdb.Executing.State],
    [jobsdb.Succeeded.State], ...) are string constants declared in
    jobsdb.go, which is not among the sources; section 4.5.1 of the
    specification lists them. *)
Inductive jobState : Type :=
  | NotPicked
  | Executing
  | Succeeded
  | Failed
  | Aborted
  | Waiting
  | Throttled.

#[global] Instance jobState_eq_dec : EqDecision jobState.
Proof. solve_decision. Defined.

Module JobStatus.
(** [jobsdb.JobStatusT], with the fields the sources assign. *)
Record t : Type := mk {
  JobID : Z;
  JobState : jobState;
  AttemptNum : Z;
  ExecTime : Z;
  RetryTime : Z;
  ErrorCode : string;
  ErrorResponse : string;
  Parameters : string;
  WorkspaceId : string
}.
End JobStatus.
Abbreviation JobStatusT := JobStatus.t.

Module Job.
(** [jobsdb.JobT], with the fields the sources and tests use. *)
Record t : Type := mk {
  UUID : string;
  JobID : Z;
  UserID : string;
  CreatedAt : Z;
  ExpireAt : Z;
  CustomVal : string;
  EventPayload : string;
  LastJobStatus : JobStatusT;
  Parameters : string;
  WorkspaceId : string
}.
End Job.
Abbreviation JobT := Job.t.

Record GetQueryParamsT : Type := {
  CustomValFilters : list string;
  IgnoreCustomValFiltersInQuery : bool;
  JobsLimit : Z;
  PayloadSizeLimit : Z
}.

Record JobsResult : Type := {
  Jobs : list JobT;
  LimitsReached : bool;
  PayloadSize : Z
}.

End Jobsdb.

(** ** services/filemanager: the interface the error stash uploads through *)
Module Filemanager.

Record UploadOutput : Type := {
  Location : string;
  ObjectName : string
}.

(** A [filemanager.FileManager] value, given by the one method the
    stash calls: [Upload(ctx, file, prefixes...)], with the file
    identified by its path. *)
Record FileManager : Type := {
  Upload : string -> list string -> UploadOutput * option string
}.

(** [FileManagerFactoryT.New], on the provider of the settings.
    [construct provider] stands for the manager built in the case of
    that provider ([&S3Manager{...}], [&GCSManager{...}] and so on,
    from the configuration of the settings), [invalidServiceProvider]
    for the text of [rterror.InvalidServiceProvider]; both are declared
    outside the sources. *)
Definition New (construct : string -> FileManager) (invalidServiceProvider : string)
    (provider : string) : FileManager + string :=
  if String.eqb provider "S3" then inl (construct "S3")
  else if String.eqb provider "GCS" then inl (construct "GCS")
  else if String.eqb provider "AZURE_BLOB" then inl (construct "AZURE_BLOB")
  else if String.eqb provider "MINIO" then inl (construct "MINIO")
  else if String.eqb provider "DIGITAL_OCEAN_SPACES" then inl (construct "DIGITAL_OCEAN_SPACES")
  else inr (invalidServiceProvider +:+ ": " +:+ provider).


End Filemanager.

(** ** processor/stash/stash.go *)
Module Stash.
Import Jobsdb Filemanager.

(** The package-level configuration variables set by [loadConfig]. *)
Record Config : Type := {
  errorStashEnabled : bool;
  errReadLoopSleep : Z;
  errDBReadBatchSize : Z;
  noOfErrStashWorkers : Z;
  maxFailedCountForErrJob : Z;
  payloadLimit : Z
}.

(** The values that [loadConfig] registers as defaults: the sleep in
    seconds, the payload limit with [bytesize.MB], which is declared
    outside the sources, taken as 2^20. Neither plays a part below. *)
Definition defaultConfig : Config := {|
  errorStashEnabled := true;
  errReadLoopSleep := 30;
  errDBReadBatchSize := 1000;
  noOfErrStashWorkers := 2;
  maxFailedCountForErrJob := 3;
  payloadLimit := 100 * 2 ^ 20
|}.

(** What the stash's collaborators answer during one step: the error
    queue ([errorDB], with the retries of [QueryJobsResultWithRetries]
    and [misc.RetryWith] folded into the final answer), the transient
    source service, the process environment, the file system and the
    clock. None of them is defined in the sources. *)
Record World : Type := {
  IsMasterBackupEnabled : bool;
  GetEnv : string -> string -> string;
  FileManagerFactory_New : string -> FileManager + string;
  ApplyJob : JobT -> bool;
  GetToRetry : GetQueryParamsT -> JobsResult + string;
  GetUnprocessed : GetQueryParamsT -> JobsResult + string;
  UpdateJobStatus : list JobStatusT -> option string;
  (** successive readings of [time.Now()] *)
  time_Now : nat -> Z;
  (** [time.Now().Unix()] and [time.Now().Format("01-02-2006")] *)
  time_Now_Unix : Z;
  time_Now_Format : string;
  uuid_NewV4 : string + string;
  CreateTMPDIR : string + string;
  filepath_Dir : string -> string;
  MkdirAll : string -> option string;
  CreateGZ : string -> option string;
  json_Marshal : JobT -> string + string;
  (** [encoding/json]'s rendering of a Go string, quotes included *)
  json_String : string -> string;
  gz_Write : string -> string -> option string;
  CloseGZ : string -> option string;
  os_Open : string -> option string
}.

Record StoreErrorOutputT : Type := {
  Location : string;
  Error : option string
}.

(** The one field of [HandleT] that changes after [Setup]. *)
Record HandleT : Type := {
  errFileUploader : option FileManager
}.

(** Calls the stash makes on its collaborators. *)
Inductive event : Type :=
  | EvUpdateJobStatus (statusList : list JobStatusT)
  | EvSend (jobs : list JobT)
  | EvClose
  | EvMkdirAll (dir : string)
  | EvCreateGZ (path : string)
  | EvWriteGZ (path content : string)
  | EvCloseGZ (path : string)
  | EvOpen (path : string)
  | EvUpload (path : string) (prefixes : list string)
  | EvRemove (path : string).

Definition backupEnabled (cfg : Config) (w : World) : bool :=
  errorStashEnabled cfg && IsMasterBackupEnabled w.

Definition setupFileUploader (cfg : Config) (w : World) (st : HandleT)
    : M event HandleT :=
  if backupEnabled cfg w then
    let provider := GetEnv w "JOBS_BACKUP_STORAGE_PROVIDER" "" in
    let bucket := GetEnv w "JOBS_BACKUP_BUCKET" "" in
    if bool_decide (provider ≠ "") && bool_decide (bucket ≠ "") then
      fm <- must (FileManagerFactory_New w provider);;
      ret {| errFileUploader := Some fm |}
    else ret st
  else ret st.

Definition getFileUploader (cfg : Config) (w : World) (st : HandleT)
    : M event (HandleT * option FileManager) :=
  st <- (if bool_decide (errFileUploader st = None) && backupEnabled cfg w
         then setupFileUploader cfg w st else ret st);;
  ret (st, errFileUploader st).

(** [jobs[i]] *)
Definition index {A} (l : list A) (i : nat) : M event A :=
  match l !! i with
  | Some a => ret a
  | None => raise IndexOutOfRange
  end.

(** The loop of [storeErrorsToObjectStorage] that marshals every job. *)
Fixpoint marshalJobs (w : World) (jobs : list JobT) (contentSlice : list string)
    : M event (list string) :=
  match jobs with
  | [] => ret contentSlice
  | job :: jobs =>
      rawJob <- must (json_Marshal w job);;
      marshalJobs w jobs (contentSlice ++ [rawJob])
  end.

Definition newline : string := String (Ascii.ascii_of_nat 10) EmptyString.

(** The inner [fmt.Sprintf("%v.%v.%v.%v", ...)] of
    [storeErrorsToObjectStorage]: unix time, instance, first and last
    job id, uuid. *)
Definition fileName (w : World) (first last : JobT) (uuid : string) : string :=
  pretty (time_Now_Unix w) +:+ "." +:+ GetEnv w "INSTANCE_ID" "1" +:+ "." +:+
  (pretty (Job.JobID first) +:+ "-" +:+ pretty (Job.JobID last)) +:+ "." +:+ uuid.

Definition storeErrorsToObjectStorage (w : World) (st : HandleT) (jobs : list JobT)
    : M event StoreErrorOutputT :=
  let localTmpDirName := "/rudder-processor-errors/" in
  uuid <- must (uuid_NewV4 w);;
  tmpDirPath <- must (CreateTMPDIR w);;
  first <- index jobs 0;;
  last <- index jobs (length jobs - 1);;
  let path := (tmpDirPath +:+ localTmpDirName) +:+ fileName w first last uuid +:+ ".json" in
  let gzipFilePath := path +:+ ".gz" in
  do emit (EvMkdirAll (filepath_Dir w gzipFilePath));;
  do check (MkdirAll w (filepath_Dir w gzipFilePath));;
  do emit (EvCreateGZ gzipFilePath);;
  do check (CreateGZ w gzipFilePath);;
  defer (EvRemove gzipFilePath) (
    contentSlice <- marshalJobs w jobs [];;
    let content := String.concat newline contentSlice in
    do emit (EvWriteGZ gzipFilePath content);;
    do check (gz_Write w gzipFilePath content);;
    do emit (EvCloseGZ gzipFilePath);;
    do check (CloseGZ w gzipFilePath);;
    do emit (EvOpen gzipFilePath);;
    do check (os_Open w gzipFilePath);;
    let prefixes := ["rudder-proc-err-logs"; time_Now_Format w] in
    match errFileUploader st with
    | None => raise NilDereference
    | Some uploader =>
        do emit (EvUpload gzipFilePath prefixes);;
        let '(uploadOutput, err) := Upload uploader gzipFilePath prefixes in
        ret {| Location := Filemanager.Location uploadOutput; Error := err |}
    end).

(** [{"success":"OK"}] and [{}] *)
Definition successOK : string :=
  "{" +:+ dq +:+ "success" +:+ dq +:+ ":" +:+ dq +:+ "OK" +:+ dq +:+ "}".
Definition emptyJSON : string := "{}".

(** [json.Marshal(struct{ Error string }{msg})] *)
Definition marshalError (w : World) (msg : string) : string :=
  "{" +:+ dq +:+ "Error" +:+ dq +:+ ":" +:+ json_String w msg +:+ "}".

(** The loop of [setErrJobStatus]. [n] counts the readings of the
    clock made so far, [statusList] is the slice built so far. *)
Fixpoint errJobStatuses (cfg : Config) (w : World) (output : StoreErrorOutputT)
    (jobs : list JobT) (n : nat) (statusList : list JobStatusT)
    : list JobStatusT :=
  match jobs with
  | [] => statusList
  | job :: jobs =>
      let '(state, errorResp) :=
        match Error output with
        | None => (Succeeded, successOK)
        | Some msg =>
            (if JobStatus.AttemptNum (Job.LastJobStatus job)
                  >=? maxFailedCountForErrJob cfg
             then Aborted else Failed,
             marshalError w msg)
        end in
      let status := {|
        JobStatus.JobID := Job.JobID job;
        JobStatus.AttemptNum :=
          GoInt.add (JobStatus.AttemptNum (Job.LastJobStatus job)) 1;
        JobStatus.JobState := state;
        JobStatus.ExecTime := time_Now w n;
        JobStatus.RetryTime := time_Now w (S n);
        JobStatus.ErrorCode := "";
        JobStatus.ErrorResponse := errorResp;
        JobStatus.Parameters := emptyJSON;
        JobStatus.WorkspaceId := Job.WorkspaceId job
      |} in
      errJobStatuses cfg w output jobs (S (S n)) (statusList ++ [status])
  end.

Definition setErrJobStatus (cfg : Config) (w : World) (jobs : list JobT)
    (output : StoreErrorOutputT) : M event unit :=
  let statusList := errJobStatuses cfg w output jobs 0 [] in
  do emit (EvUpdateJobStatus statusList);;
  check (UpdateJobStatus w statusList).

(** The [for _, job := range combinedList] loop of [readErrJobsLoop]. *)
Fixpoint markJobs (w : World) (canUpload : bool) (jobState : jobState)
    (combinedList : list JobT) (n : nat)
    (filteredJobList : list JobT) (statusList : list JobStatusT)
    : list JobT * list JobStatusT :=
  match combinedList with
  | [] => (filteredJobList, statusList)
  | job :: combinedList =>
      let status := {|
        JobStatus.JobID := Job.JobID job;
        JobStatus.AttemptNum :=
          GoInt.add (JobStatus.AttemptNum (Job.LastJobStatus job)) 1;
        JobStatus.JobState := jobState;
        JobStatus.ExecTime := time_Now w n;
        JobStatus.RetryTime := time_Now w (S n);
        JobStatus.ErrorCode := "";
        JobStatus.ErrorResponse := emptyJSON;
        JobStatus.Parameters := emptyJSON;
        JobStatus.WorkspaceId := Job.WorkspaceId job
      |} in
      let aborted := {|
        JobStatus.JobID := JobStatus.JobID status;
        JobStatus.AttemptNum := JobStatus.AttemptNum status;
        JobStatus.JobState := Aborted;
        JobStatus.ExecTime := JobStatus.ExecTime status;
        JobStatus.RetryTime := JobStatus.RetryTime status;
        JobStatus.ErrorCode := JobStatus.ErrorCode status;
        JobStatus.ErrorResponse := JobStatus.ErrorResponse status;
        JobStatus.Parameters := JobStatus.Parameters status;
        JobStatus.WorkspaceId := JobStatus.WorkspaceId status
      |} in
      if canUpload then
        if ApplyJob w job then
          markJobs w canUpload jobState combinedList (S (S n))
            filteredJobList (statusList ++ [aborted])
        else
          markJobs w canUpload jobState combinedList (S (S n))
            (filteredJobList ++ [job]) (statusList ++ [status])
      else
        markJobs w canUpload jobState combinedList (S (S n))
          filteredJobList (statusList ++ [status])
  end.

(** [readErrJobsLoop], the two queries: jobs to retry, then, unless
    the limits are reached, unprocessed jobs. *)
Definition readJobs (cfg : Config) (w : World) : M event (list JobT) :=
  let queryParams := {|
    CustomValFilters := [""];
    IgnoreCustomValFiltersInQuery := true;
    JobsLimit := errDBReadBatchSize cfg;
    PayloadSizeLimit := payloadLimit cfg
  |} in
  toRetry <- must (GetToRetry w queryParams);;
  if negb (LimitsReached toRetry) then
    let queryParams := {|
      CustomValFilters := CustomValFilters queryParams;
      IgnoreCustomValFiltersInQuery := IgnoreCustomValFiltersInQuery queryParams;
      JobsLimit := GoInt.sub (JobsLimit queryParams) (GoInt.len (Jobs toRetry));
      PayloadSizeLimit :=
        if PayloadSizeLimit queryParams >? 0
        then GoInt.sub (PayloadSizeLimit queryParams) (PayloadSize toRetry)
        else PayloadSizeLimit queryParams
    |} in
    unprocessed <- must (GetUnprocessed w queryParams);;
    ret (Jobs toRetry ++ Jobs unprocessed)
  else ret (Jobs toRetry).

(** [canUpload := backupEnabled() && st.getFileUploader(ctx) != nil] *)
Definition canUpload (cfg : Config) (w : World) (st : HandleT)
    : M event (HandleT * bool) :=
  if backupEnabled cfg w then
    r <- getFileUploader cfg w st;;
    ret (fst r, bool_decide (snd r ≠ None))
  else ret (st, false).

(** [readErrJobsLoop], from [jobState := jobsdb.Executing.State] to
    the send on [errProcessQ]. *)
Definition markAndSend (w : World) (canUpload : bool) (combinedList : list JobT)
    : M event unit :=
  let jobState := if canUpload then Executing else Aborted in
  let filteredJobList := if canUpload then [] else combinedList in
  let '(filteredJobList, statusList) :=
    markJobs w canUpload jobState combinedList 0 filteredJobList [] in
  do emit (EvUpdateJobStatus statusList);;
  do check (UpdateJobStatus w statusList);;
  if canUpload && (GoInt.len filteredJobList >? 0)
  then emit (EvSend filteredJobList) else ret tt.

(** The body of the [case <-time.After(errReadLoopSleep)] branch of
    [readErrJobsLoop]: one read of the error queue. *)
Definition readErrJobs (cfg : Config) (w : World) (st : HandleT)
    : M event HandleT :=
  combinedList <- readJobs cfg w;;
  if GoInt.len combinedList =? 0 then ret st
  else
    r <- canUpload cfg w st;;
    do markAndSend w (snd r) combinedList;;
    ret (fst r).

(** What the [select] of [readErrJobsLoop] receives. *)
Inductive tick : Type :=
  | CtxDone
  | TimeAfter (w : World).

(** Whether the loop has returned, or waits in its [select] for the
    next tick. *)
Inductive loopState : Type :=
  | Returned
  | Selecting (st : HandleT).

Fixpoint readErrJobsLoop (cfg : Config) (ticks : list tick) (st : HandleT)
    : M event loopState :=
  match ticks with
  | [] => ret (Selecting st)
  | CtxDone :: _ => do emit EvClose;; ret Returned
  | TimeAfter w :: ticks =>
      st <- readErrJobs cfg w st;;
      readErrJobsLoop cfg ticks st
  end.

(** The body of the [for jobs := range st.errProcessQ] loop of a
    worker of [runErrWorkers]. *)
Definition errWorker (cfg : Config) (w : World) (st : HandleT) (jobs : list JobT)
    : M event unit :=
  output <- storeErrorsToObjectStorage w st jobs;;
  setErrJobStatus cfg w jobs output.

(** *** Sample data *)

Definition sampleStatus (attemptNum : Z) : JobStatusT :=
  JobStatus.mk 0 NotPicked attemptNum 0 0 "" "" "" "".

(** A job with the given id, last attempt number and parameters. *)
Definition sampleJob (jobID attemptNum : Z) (parameters : string) : JobT :=
  Job.mk "2f548e6d-60f6-44af-a1f4-62b3272445c3" jobID "u1" 0 0 "GA" "{}"
    (sampleStatus attemptNum) parameters "workspace".

Definition sampleUploader : FileManager := {|
  Upload := fun path _ =>
    ({| Filemanager.Location := "s3://bucket/" +:+ path; ObjectName := path |}, None)
|}.

(** A world in which the backup is configured, every call succeeds,
    the transient source service applies to the jobs whose parameters
    read [transient], and the error queue holds the given jobs. *)
Definition sampleWorld (toRetry unprocessed : list JobT) : World := {|
  IsMasterBackupEnabled := true;
  GetEnv := fun key defaultVal =>
    if String.eqb key "JOBS_BACKUP_STORAGE_PROVIDER" then "S3"
    else if String.eqb key "JOBS_BACKUP_BUCKET" then "bucket"
    else if String.eqb key "INSTANCE_ID" then "7"
    else defaultVal;
  FileManagerFactory_New := fun _ => inl sampleUploader;
  ApplyJob := fun job => String.eqb (Job.Parameters job) "transient";
  GetToRetry := fun _ =>
    inl {| Jobs := toRetry; LimitsReached := false; PayloadSize := 0 |};
  GetUnprocessed := fun _ =>
    inl {| Jobs := unprocessed; LimitsReached := false; PayloadSize := 0 |};
  UpdateJobStatus := fun _ => None;
  time_Now := fun n => 1656000000 + Z.of_nat n;
  time_Now_Unix := 1656000000;
  time_Now_Format := "06-23-2022";
  uuid_NewV4 := inl "6ba7b810-9dad-11d1-80b4-00c04fd430c8";
  CreateTMPDIR := inl "/tmp";
  filepath_Dir := fun _ => "/tmp/rudder-processor-errors";
  MkdirAll := fun _ => None;
  CreateGZ := fun _ => None;
  json_Marshal := fun job => inl (pretty (Job.JobID job));
  json_String := fun s => dq +:+ s +:+ dq;
  gz_Write := fun _ _ => None;
  CloseGZ := fun _ => None;
  os_Open := fun _ => None
|}.

(** The sample world with the given backup provider in its
    environment, and with the factory of the file manager package,
    every manager of which behaves as the sample uploader. *)
Definition sampleWorldWithProvider (provider : string)
    (toRetry unprocessed : list JobT) : World :=
  let w := sampleWorld toRetry unprocessed in {|
  IsMasterBackupEnabled := IsMasterBackupEnabled w;
  GetEnv := fun key defaultVal =>
    if String.eqb key "JOBS_BACKUP_STORAGE_PROVIDER" then provider
    else GetEnv w key defaultVal;
  FileManagerFactory_New := New (fun _ => sampleUploader) "service provider not supported";
  ApplyJob := ApplyJob w;
  GetToRetry := GetToRetry w;
  GetUnprocessed := GetUnprocessed w;
  UpdateJobStatus := UpdateJobStatus w;
  time_Now := time_Now w;
  time_Now_Unix := time_Now_Unix w;
  time_Now_Format := time_Now_Format w;
  uuid_NewV4 := uuid_NewV4 w;
  CreateTMPDIR := CreateTMPDIR w;
  filepath_Dir := filepath_Dir w;
  MkdirAll := MkdirAll w;
  CreateGZ := CreateGZ w;
  json_Marshal := json_Marshal w;
  json_String := json_String w;
  gz_Write := gz_Write w;
  CloseGZ := CloseGZ w;
  os_Open := os_Open w
|}.


(** The sample world with an error queue that refuses every status
    update. *)
Definition sampleWorldRejecting (toRetry unprocessed : list JobT) : World :=
  let w := sampleWorld toRetry unprocessed in {|
  IsMasterBackupEnabled := IsMasterBackupEnabled w;
  GetEnv := GetEnv w;
  FileManagerFactory_New := FileManagerFactory_New w;
  ApplyJob := ApplyJob w;
  GetToRetry := GetToRetry w;
  GetUnprocessed := GetUnprocessed w;
  UpdateJobStatus := fun _ => Some "connection refused";
  time_Now := time_Now w;
  time_Now_Unix := time_Now_Unix w;
  time_Now_Format := time_Now_Format w;
  uuid_NewV4 := uuid_NewV4 w;
  CreateTMPDIR := CreateTMPDIR w;
  filepath_Dir := filepath_Dir w;
  MkdirAll := MkdirAll w;
  CreateGZ := CreateGZ w;
  json_Marshal := json_Marshal w;
  json_String := json_String w;
  gz_Write := gz_Write w;
  CloseGZ := CloseGZ w;
  os_Open := os_Open w
|}.

(** The sample world with an error queue that answers each query with
    no more jobs than the [JobsLimit] it is asked for. *)
Definition sampleWorldLimited (toRetry unprocessed : list JobT) : World :=
  let w := sampleWorld toRetry unprocessed in {|
  IsMasterBackupEnabled := IsMasterBackupEnabled w;
  GetEnv := GetEnv w;
  FileManagerFactory_New := FileManagerFactory_New w;
  ApplyJob := ApplyJob w;
  GetToRetry := fun params =>
    inl {| Jobs := take (Z.to_nat (JobsLimit params)) toRetry;
           LimitsReached := false; PayloadSize := 0 |};
  GetUnprocessed := fun params =>
    inl {| Jobs := take (Z.to_nat (JobsLimit params)) unprocessed;
           LimitsReached := false; PayloadSize := 0 |};
  UpdateJobStatus := UpdateJobStatus w;
  time_Now := time_Now w;
  time_Now_Unix := time_Now_Unix w;
  time_Now_Format := time_Now_Format w;
  uuid_NewV4 := uuid_NewV4 w;
  CreateTMPDIR := CreateTMPDIR w;
  filepath_Dir := filepath_Dir w;
  MkdirAll := MkdirAll w;
  CreateGZ := CreateGZ w;
  json_Marshal := json_Marshal w;
  json_String := json_String w;
  gz_Write := gz_Write w;
  CloseGZ := CloseGZ w;
  os_Open := os_Open w
|}.

(** A configuration that reads at most two jobs at a time. *)
Definition smallBatchConfig : Config := {|
  errorStashEnabled := true;
  errReadLoopSleep := 30;
  errDBReadBatchSize := 2;
  noOfErrStashWorkers := 2;
  maxFailedCountForErrJob := 3;
  payloadLimit := 100 * 2 ^ 20
|}.


(** A computation that does not end in an index-out-of-range panic. *)
Definition noIndexPanic {A} (c : M event A) : Prop :=
  snd c <> Panicked IndexOutOfRange.

(** The job lists sent on [errProcessQ] in a trace. *)
Definition sent (tr : list event) : list (list JobT) :=
  omap (fun e => match e with EvSend jobs => Some jobs | _ => None end) tr.

(** The status lists handed to [UpdateJobStatus] in a trace. *)
Definition written (tr : list event) : list (list JobStatusT) :=
  omap (fun e => match e with EvUpdateJobStatus l => Some l | _ => None end) tr.

(** A computation that does not end in the panic [p]. *)
Definition avoids {A} (p : panic) (c : M event A) : Prop :=
  snd c <> Panicked p.

(** An event on the file system or on the object store. *)
Definition isFileEvent (e : event) : Prop :=
  match e with
  | EvUpdateJobStatus _ | EvSend _ | EvClose => False
  | _ => True
  end.



End Stash.

(** ** config/backend-config: the configuration the manager subscribes to

    The package is outside the sources; the records carry the fields
    that the manager reads and that the router test's
    [sampleBackendConfig] sets. *)
Module Backendconfig.

Module DestinationDefinitionT.
Record t : Type := mk {
  ID : string;
  Name : string;
  DisplayName : string
}.
End DestinationDefinitionT.

Module DestinationT.
Record t : Type := mk {
  ID : string;
  Name : string;
  DestinationDefinition : DestinationDefinitionT.t;
  Enabled : bool;
  IsProcessorEnabled : bool
}.
End DestinationT.

Module SourceT.
Record t : Type := mk {
  WorkspaceID : string;
  ID : string;
  WriteKey : string;
  Enabled : bool;
  Destinations : list DestinationT.t
}.
End SourceT.

Record ConfigT : Type := {
  Sources : list SourceT.t
}.

End Backendconfig.

(** ** router/manager/manager.go *)
Module Manager.
Import Backendconfig.

Definition objectStorageDestinations : list string :=
  ["S3"; "GCS"; "AZURE_BLOB"; "MINIO"; "DIGITAL_OCEAN_SPACES"].
Definition asyncDestinations : list string :=
  ["MARKETO_BULK_UPLOAD"].
Definition warehouseDestinations : list string :=
  ["RS"; "BQ"; "SNOWFLAKE"; "POSTGRES"; "CLICKHOUSE"; "MSSQL";
   "AZURE_SYNAPSE"; "S3_DATALAKE"; "GCS_DATALAKE"; "AZURE_DATALAKE";
   "DELTALAKE"].

(** Modelled from the spec: [misc.ContainsString] is declared in
    utils/misc, outside the sources; it tells whether the slice holds
    the string, which is how section 4.7 of the specification speaks
    of the destination lists. *)
Fixpoint ContainsString (slice : list string) (str : string) : bool :=
  match slice with
  | [] => false
  | s :: slice => if String.eqb s str then true else ContainsString slice str
  end.

(** The two job stores the factories hold. *)
Inductive store : Type :=
  | RouterDB
  | BatchRouterDB.

(** A started instance: [*router.HandleT], made from a destination
    definition, or [*batchrouter.HandleT], made from its name. *)
Inductive handle : Type :=
  | Router (destinationDefinition : DestinationDefinitionT.t)
  | BatchRouter (destType : string).

(** Calls of [monitorDestRouters] on its collaborators.
    [EvStartBatchRouter] stands for [batchrouterFactory.New(name)]
    followed by [brt.Start()], [EvStartRouter] for
    [routerFactory.New(definition)] followed by [rt.Start()], and
    [EvShutdown] for the group of goroutines that runs every
    registered [Shutdown]. *)
Inductive event : Type :=
  | EvSubscribe
  | EvDeleteExecuting (db : store)
  | EvStartBatchRouter (destType : string)
  | EvStartRouter (destinationDefinition : DestinationDefinitionT.t)
  | EvShutdown (cleanup : list handle).

(** The locals of [monitorDestRouters]. *)
Record state : Type := {
  dstToRouter : gmap string handle;
  dstToBatchRouter : gmap string handle;
  cleanup : list handle
}.

Definition initial : state := {|
  dstToRouter := ∅;
  dstToBatchRouter := ∅;
  cleanup := []
|}.

(** The body of the loop over [source.Destinations].
    [enabledDestinations] is the map of that name, local to one
    configuration event. *)
Definition forDestination (destination : DestinationT.t)
    (acc : gmap string bool * state) : M event (gmap string bool * state) :=
  let '(enabledDestinations, s) := acc in
  let name := DestinationDefinitionT.Name (DestinationT.DestinationDefinition destination) in
  let enabledDestinations := <[name := true]> enabledDestinations in
  if ContainsString objectStorageDestinations name
     || ContainsString warehouseDestinations name
     || ContainsString asyncDestinations name
  then
    match dstToBatchRouter s !! name with
    | Some _ => ret (enabledDestinations, s)
    | None =>
        let brt := BatchRouter name in
        do emit (EvStartBatchRouter name);;
        ret (enabledDestinations,
             {| dstToRouter := dstToRouter s;
                dstToBatchRouter := <[name := brt]> (dstToBatchRouter s);
                cleanup := cleanup s ++ [brt] |})
    end
  else
    match dstToRouter s !! name with
    | Some _ => ret (enabledDestinations, s)
    | None =>
        let rt := Router (DestinationT.DestinationDefinition destination) in
        do emit (EvStartRouter (DestinationT.DestinationDefinition destination));;
        ret (enabledDestinations,
             {| dstToRouter := <[name := rt]> (dstToRouter s);
                dstToBatchRouter := dstToBatchRouter s;
                cleanup := cleanup s ++ [rt] |})
    end.

Fixpoint forDestinations (destinations : list DestinationT.t)
    (acc : gmap string bool * state) : M event (gmap string bool * state) :=
  match destinations with
  | [] => ret acc
  | destination :: destinations =>
      acc <- forDestination destination acc;;
      forDestinations destinations acc
  end.

Fixpoint forSources (sources : list SourceT.t)
    (acc : gmap string bool * state) : M event (gmap string bool * state) :=
  match sources with
  | [] => ret acc
  | source :: sources =>
      acc <- forDestinations (SourceT.Destinations source) acc;;
      forSources sources acc
  end.

(** The payload of a [pubsub.DataEvent], an [interface{}] in Go. *)
Inductive data : Type :=
  | ConfigData (config : ConfigT)
  | OtherData.

(** What the [select] of the monitor loop receives. *)
Inductive received : Type :=
  | CtxDone
  | ChannelClosed
  | DataEvent (d : data).

(** Whether the loop was left by [break loop], or waits in its
    [select] for the next event. *)
Inductive loopState : Type :=
  | Broken (s : state)
  | Selecting (s : state).

(** The body of the [case config, open := <-ch] branch, for an open
    channel. *)
Definition onConfig (d : data) (s : state) : M event state :=
  match d with
  | OtherData => raise TypeAssertion
  | ConfigData sources =>
      acc <- forSources (Sources sources) (∅, s);;
      ret (snd acc)
  end.

Fixpoint monitorLoop (events : list received) (s : state) : M event loopState :=
  match events with
  | [] => ret (Selecting s)
  | CtxDone :: _ => ret (Broken s)
  | ChannelClosed :: _ => ret (Broken s)
  | DataEvent d :: events =>
      s <- onConfig d s;;
      monitorLoop events s
  end.

(** [DeleteExecuting] has no result in Go; it returns or panics. *)
Definition monitorDestRouters (DeleteExecuting : store -> option string)
    (events : list received) : M event loopState :=
  do emit EvSubscribe;;
  do emit (EvDeleteExecuting RouterDB);;
  do check (DeleteExecuting RouterDB);;
  do emit (EvDeleteExecuting BatchRouterDB);;
  do check (DeleteExecuting BatchRouterDB);;
  r <- monitorLoop events initial;;
  match r with
  | Broken s => do emit (EvShutdown (cleanup s));; ret (Broken s)
  | Selecting s => ret (Selecting s)
  end.

(** The names for which a trace starts an instance, in order. *)
Definition started (tr : list event) : list string :=
  omap (fun e =>
          match e with
          | EvStartBatchRouter name => Some name
          | EvStartRouter def => Some (DestinationDefinitionT.Name def)
          | _ => None
          end) tr.

Definition isBatchDestination (name : string) : bool :=
  bool_decide (name ∈ objectStorageDestinations
               ∨ name ∈ warehouseDestinations
               ∨ name ∈ asyncDestinations).

(** The configurations the loop reads before it stops. *)
Fixpoint configsRead (events : list received) : list ConfigT :=
  match events with
  | DataEvent (ConfigData c) :: events => c :: configsRead events
  | _ => []
  end.

(** The destinations of a configuration, over all its sources. *)
Definition destinationsOf (c : ConfigT) : list DestinationT.t :=
  concat (map SourceT.Destinations (Sources c)).

Definition definitionName (destination : DestinationT.t) : string :=
  DestinationDefinitionT.Name (DestinationT.DestinationDefinition destination).

(** The definition names of the destinations the loop reads before
    it stops, in the order it visits them. *)
Definition namesRead (events : list received) : list string :=
  concat (map (fun c => map definitionName (destinationsOf c)) (configsRead events)).

(** An event that creates and starts an instance. *)
Definition isStart (e : event) : Prop :=
  match e with
  | EvStartBatchRouter _ | EvStartRouter _ => True
  | _ => False
  end.

(** The invariant of the monitor loop: [tr] is the trace so far, [s]
    the locals, [seen] the definition names visited so far. *)
Definition Inv (tr : list event) (s : state) (seen : list string) : Prop :=
  NoDup (started tr)
  /\ (forall name, name ∈ started tr <->
        is_Some (dstToRouter s !! name) \/ is_Some (dstToBatchRouter s !! name))
  /\ (forall name, is_Some (dstToRouter s !! name) -> isBatchDestination name = false)
  /\ (forall name, is_Some (dstToBatchRouter s !! name) -> isBatchDestination name = true)
  /\ (forall name, EvStartBatchRouter name ∈ tr -> isBatchDestination name = true)
  /\ (forall def, EvStartRouter def ∈ tr ->
        isBatchDestination (DestinationDefinitionT.Name def) = false)
  /\ (forall name, name ∈ started tr <-> name ∈ seen).

(** What remains of the invariant when the locals are gone. *)
Definition TraceInv (tr : list event) (seen : list string) : Prop :=
  NoDup (started tr)
  /\ (forall name, EvStartBatchRouter name ∈ tr -> isBatchDestination name = true)
  /\ (forall def, EvStartRouter def ∈ tr ->
        isBatchDestination (DestinationDefinitionT.Name def) = false)
  /\ (forall name, name ∈ started tr <-> name ∈ seen).

(** *** Sample data, after the router test's [sampleBackendConfig] *)

Definition gaDestinationDefinition : DestinationDefinitionT.t :=
  DestinationDefinitionT.mk "gaid1" "GA" "Google Analytics".

Definition s3DestinationDefinition : DestinationDefinitionT.t :=
  DestinationDefinitionT.mk "s3id1" "S3" "Amazon S3".

Definition sampleDestination (def : DestinationDefinitionT.t) (enabled : bool)
    : DestinationT.t :=
  DestinationT.mk "did1" "dest" def enabled true.

Definition sampleConfig (destinations : list DestinationT.t) : ConfigT := {|
  Sources := [SourceT.mk "workspace" "enabled-source" "enabled-write-key" true
                destinations]
|}.

Definition noPanic : store -> option string := fun _ => None.


(** The instance that a start event creates. *)
Definition startHandle (e : event) : option handle :=
  match e with
  | EvStartBatchRouter name => Some (BatchRouter name)
  | EvStartRouter def => Some (Router def)
  | _ => None
  end.

(** An event that runs the registered [Shutdown] functions. *)
Definition isShutdown (e : event) : Prop :=
  match e with
  | EvShutdown _ => True
  | _ => False
  end.


End Manager.

(** ** jobsdb/datamanager.go

    The file belongs to the multi-tenant job store, in which a job
    carries the customer it belongs to and every customer owns four
    queues. *)
Module Datamanager.

Module Job.
(** [jobsdb.JobT] as this file uses it. *)
Record t : Type := mk {
  UUID : string;
  JobID : Z;
  Customer : string;
  CustomVal : string;
  EventPayload : string
}.
End Job.
Abbreviation JobT := Job.t.

(** A [JobsDB] value: the handle that [SetupCustomerQueues] sets up
    for one customer and one table prefix. *)
Record JobsDB : Type := {
  owner : string;
  tablePrefix : string
}.

#[global] Instance JobsDB_eq_dec : EqDecision JobsDB.
Proof. solve_decision. Defined.

Record CustomerQueue : Type := {
  GatewayJobsdb : JobsDB;
  RouterJobsdb : JobsDB;
  BatchrouterJobsddb : JobsDB;
  ProcerrorJobsdb : JobsDB
}.

(** [SetupCustomerQueues], for the customers that
    [distributed.GetCustomerList] returns. Every customer gets
    handles of its own, set up with the same four table prefixes. *)
Fixpoint SetupCustomerQueues (customers : list string)
    (customerQueues : gmap string CustomerQueue) : gmap string CustomerQueue :=
  match customers with
  | [] => customerQueues
  | customer :: customers =>
      SetupCustomerQueues customers
        (<[customer := {|
             GatewayJobsdb := {| owner := customer; tablePrefix := "gw" |};
             RouterJobsdb := {| owner := customer; tablePrefix := "rt" |};
             BatchrouterJobsddb := {| owner := customer; tablePrefix := "batch_rt" |};
             ProcerrorJobsdb := {| owner := customer; tablePrefix := "proc_error" |}
           |}]> customerQueues)
  end.

(** Calls on the queues: [db.Store(list)]. *)
Inductive event : Type :=
  | EvStore (db : JobsDB) (list : list JobT).

(** The [switch queue] of [getQueueForCustomer]: the field of the
    customer's queues that a queue name selects. *)
Definition selectQueue (queue : string) : option (CustomerQueue -> JobsDB) :=
  if String.eqb queue "gw" then Some GatewayJobsdb
  else if String.eqb queue "rt" then Some RouterJobsdb
  else if String.eqb queue "batch_rt" then Some BatchrouterJobsddb
  else if String.eqb queue "proc_error" then Some ProcerrorJobsdb
  else None.

(** [customerQueues[customer]] is a nil pointer for a customer that
    is not registered; reading a field of it panics. *)
Definition getQueueForCustomer (customerQueues : gmap string CustomerQueue)
    (customer queue : string) : M event JobsDB :=
  let customerQueue := customerQueues !! customer in
  match selectQueue queue with
  | Some field =>
      match customerQueue with
      | Some cq => ret (field cq)
      | None => raise NilDereference
      end
  | None => raise (PanicMsg "Unknow queue")
  end.

(** The first loop of [Store]: group the jobs by customer. *)
Fixpoint groupByCustomer (jobList : list JobT)
    (customerJobListMap : gmap string (list JobT)) : gmap string (list JobT) :=
  match jobList with
  | [] => customerJobListMap
  | job :: jobList =>
      let customerJobListMap :=
        match customerJobListMap !! Job.Customer job with
        | Some _ => customerJobListMap
        | None => <[Job.Customer job := []]> customerJobListMap
        end in
      groupByCustomer jobList
        (<[Job.Customer job :=
             default [] (customerJobListMap !! Job.Customer job) ++ [job]]>
           customerJobListMap)
  end.

Definition StoreJobsForCustomer (customerQueues : gmap string CustomerQueue)
    (customer queue : string) (list : list JobT) : M event (option string) :=
  db <- getQueueForCustomer customerQueues customer queue;;
  do emit (EvStore db list);;
  ret None.

(** The second loop of [Store], over the entries of the map in the
    order the runtime yields them. *)
Fixpoint storeEach (customerQueues : gmap string CustomerQueue) (queue : string)
    (entries : list (string * list JobT)) : M event unit :=
  match entries with
  | [] => ret tt
  | (customer, list) :: entries =>
      do StoreJobsForCustomer customerQueues customer queue list;;
      storeEach customerQueues queue entries
  end.

(** [range] is the order in which Go iterates over a map, which the
    language leaves open: some enumeration of the map's entries. *)
Definition Store (range : gmap string (list JobT) -> list (string * list JobT))
    (customerQueues : gmap string CustomerQueue)
    (jobList : list JobT) (queue : string) : M event (option string) :=
  let customerJobListMap := groupByCustomer jobList ∅ in
  do storeEach customerQueues queue (range customerJobListMap);;
  ret None.

(** The calls [db.Store(list)] of a trace. *)
Definition stores (tr : list event) : list (JobsDB * list JobT) :=
  map (fun e => match e with EvStore db l => (db, l) end) tr.

Definition knownQueue (queue : string) : Prop :=
  queue = "gw" ∨ queue = "rt" ∨ queue = "batch_rt" ∨ queue = "proc_error".

(** The jobs of a list of map entries. *)
Definition jobsOf (entries : list (string * list JobT)) : list JobT :=
  concat (map snd entries).

(** *** Sample data, after [distributed.Setup] *)

Definition sampleQueues : gmap string CustomerQueue :=
  SetupCustomerQueues ["workspaceID"; "tenant2"] ∅.

Definition sampleJob (jobID : Z) (customer : string) : JobT :=
  Job.mk "2f548e6d-60f6-44af-a1f4-62b3272445c3" jobID customer "GA" "{}".


(** *** The other entry points of the file *)

(** The loop of [GetCustomerList]. *)
Fixpoint customerListLoop (jobList : list JobT) (customerListMap : gmap string Z)
    : gmap string Z :=
  match jobList with
  | [] => customerListMap
  | job :: jobList =>
      customerListLoop jobList
        (match customerListMap !! Job.Customer job with
         | Some _ => customerListMap
         | None => <[Job.Customer job := 0]> customerListMap
         end)
  end.

Definition GetCustomerList (jobList : list JobT) : gmap string Z :=
  customerListLoop jobList ∅.

(** The inner loop of [MergeMaps], over the entries of one map. *)
Fixpoint mergeEntries (entries : list (string * string)) (result : gmap string string)
    : gmap string string :=
  match entries with
  | [] => result
  | (k, v) :: entries => mergeEntries entries (<[k := v]> result)
  end.

(** The outer loop of [MergeMaps]. The keys are UUIDs, taken in their
    text form. *)
Fixpoint mergeLoop (range : gmap string string -> list (string * string))
    (maps : list (gmap string string)) (result : gmap string string)
    : gmap string string :=
  match maps with
  | [] => result
  | m :: maps => mergeLoop range maps (mergeEntries (range m) result)
  end.

Definition MergeMaps (range : gmap string string -> list (string * string))
    (maps : list (gmap string string)) : gmap string string :=
  mergeLoop range maps ∅.

(** Calls on the queues by the entry points other than [Store]:
    [db.StoreWithRetryEach(list)] and [db.DeleteExecuting(params)]. *)
Inductive call : Type :=
  | CallStoreWithRetryEach (db : JobsDB) (list : list JobT)
  | CallDeleteExecuting (db : JobsDB) (params : Jobsdb.GetQueryParamsT).

(** [getQueueForCustomer], which calls no queue, in a computation that
    records [call]s. *)
Definition queueFor (customerQueues : gmap string CustomerQueue)
    (customer queue : string) : M call JobsDB :=
  ([], snd (getQueueForCustomer customerQueues customer queue)).

(** The second loop of [StoreWithRetryEach]. [answer db list] is the
    map of errors that [db.StoreWithRetryEach(list)] returns. *)
Fixpoint retryEach (answer : JobsDB -> list JobT -> gmap string string)
    (customerQueues : gmap string CustomerQueue) (queue : string)
    (entries : list (string * list JobT)) (maps : list (gmap string string))
    : M call (list (gmap string string)) :=
  match entries with
  | [] => ret maps
  | (customer, list) :: entries =>
      db <- queueFor customerQueues customer queue;;
      do emit (CallStoreWithRetryEach db list);;
      retryEach answer customerQueues queue entries (maps ++ [answer db list])
  end.

Definition StoreWithRetryEach
    (range : gmap string (list JobT) -> list (string * list JobT))
    (rangeErrors : gmap string string -> list (string * string))
    (answer : JobsDB -> list JobT -> gmap string string)
    (customerQueues : gmap string CustomerQueue)
    (jobList : list JobT) (queue : string) : M call (gmap string string) :=
  let customerJobListMap := groupByCustomer jobList ∅ in
  maps <- retryEach answer customerQueues queue (range customerJobListMap) [];;
  ret (MergeMaps rangeErrors maps).

(** The loop of [DeleteExecuting], over the keys of [customerQueues]. *)
Fixpoint deleteEach (customerQueues : gmap string CustomerQueue)
    (params : Jobsdb.GetQueryParamsT) (queueType : string)
    (customers : list string) : M call unit :=
  match customers with
  | [] => ret tt
  | customer :: customers =>
      db <- queueFor customerQueues customer queueType;;
      do emit (CallDeleteExecuting db params);;
      deleteEach customerQueues params queueType customers
  end.

Definition DeleteExecuting
    (range : gmap string CustomerQueue -> list (string * CustomerQueue))
    (customerQueues : gmap string CustomerQueue)
    (params : Jobsdb.GetQueryParamsT) (queueType : string) : M call unit :=
  deleteEach customerQueues params queueType (map fst (range customerQueues)).

(** The arguments of the calls [db.StoreWithRetryEach(list)] of a trace. *)
Definition retryCalls (tr : list call) : list (JobsDB * list JobT) :=
  omap (fun c => match c with
                 | CallStoreWithRetryEach db l => Some (db, l)
                 | _ => None
                 end) tr.

(** The customers of a job list. *)
Definition customersOf (jobList : list JobT) : list string :=
  map Job.Customer jobList.


End Datamanager.

(** ** The router's pickup of expired jobs *)
Module Router.
Import Jobsdb.

(** One hour, in the nanoseconds of [time.Duration]. *)
Definition Hour : Z := 3600 * 1000 * 1000 * 1000.

(** Calls of a pickup on the job store, on the error queue and on
    the destination adapter. *)
Inductive event : Type :=
  | EvUpdateJobStatus (statusList : list JobStatusT)
  | EvStoreProcError (jobs : list JobT)
  | EvUpdateJobStatusInTx (drainList : list JobStatusT)
  | EvAdapterSend (job : JobT).

(** Modelled from the spec: the router's pickup ([readAndProcess] in
    router.go) is not among the sources, only its test is. Sections
    4.4 (step 6), 4.5.1 and 7 of the specification say: a job with
    [now - createdAt > jobRetention] is expired; it is scheduled
    [Aborted] with reason "job expired" and code 410, with no adapter
    call; scenario S4 adds that its [AttemptNum] is unchanged. The
    test "aborts events that are older than a configurable duration"
    fixes the error response to [{"reason": "job expired"}]. *)
Definition expired (now jobRetention : Z) (job : JobT) : bool :=
  now - Job.CreatedAt job >? jobRetention.

(** Modelled from the spec: the status row scheduled for an expired
    job (section 7, [Expired]; scenario S4). *)
Definition expiredStatus (now : Z) (job : JobT) : JobStatusT := {|
  JobStatus.JobID := Job.JobID job;
  JobStatus.AttemptNum := JobStatus.AttemptNum (Job.LastJobStatus job);
  JobStatus.JobState := Aborted;
  JobStatus.ExecTime := now;
  JobStatus.RetryTime := now;
  JobStatus.ErrorCode := "410";
  JobStatus.ErrorResponse :=
    "{" +:+ dq +:+ "reason" +:+ dq +:+ ": " +:+ dq +:+ "job expired" +:+ dq +:+ "}";
  JobStatus.Parameters := "{}";
  JobStatus.WorkspaceId := Job.WorkspaceId job
|}.

(** Modelled from the spec: the row that marks a picked-up job
    [Executing] (section 4.4, step 4). The router test expects the
    attempt number of the job's last status in it. *)
Definition executingStatus (now : Z) (job : JobT) : JobStatusT := {|
  JobStatus.JobID := Job.JobID job;
  JobStatus.AttemptNum := JobStatus.AttemptNum (Job.LastJobStatus job);
  JobStatus.JobState := Executing;
  JobStatus.ExecTime := now;
  JobStatus.RetryTime := now;
  JobStatus.ErrorCode := "";
  JobStatus.ErrorResponse := "{}";
  JobStatus.Parameters := "{}";
  JobStatus.WorkspaceId := Job.WorkspaceId job
|}.

(** Modelled from the spec: one pickup of the generator loop (section
    4.4, steps 4 to 6) over the jobs the store returned. Expired jobs
    go to the drain list and to the error stash (section 4.5.1, "On
    Aborted"); the others are marked [Executing] and handed to the
    workers, which call the adapter. The result is the number of jobs
    handed to the workers, as [readAndProcess] returns it in the
    test. *)
Fixpoint classify (now jobRetention : Z) (jobs : list JobT)
    (drainList statusList : list JobStatusT) (drainJobList toProcess : list JobT)
    : list JobStatusT * list JobStatusT * list JobT * list JobT :=
  match jobs with
  | [] => (drainList, statusList, drainJobList, toProcess)
  | job :: jobs =>
      if expired now jobRetention job then
        classify now jobRetention jobs
          (drainList ++ [expiredStatus now job]) statusList
          (drainJobList ++ [job]) toProcess
      else
        classify now jobRetention jobs
          drainList (statusList ++ [executingStatus now job])
          drainJobList (toProcess ++ [job])
  end.

(** Modelled from the spec: the workers call the adapter for the jobs
    handed to them (section 4.5); which answer they get and what
    they make of it plays no part here. *)
Fixpoint dispatch (toProcess : list JobT) : M event unit :=
  match toProcess with
  | [] => ret tt
  | job :: toProcess => do emit (EvAdapterSend job);; dispatch toProcess
  end.

(** Modelled from the spec: [readAndProcess], one cycle of the
    generator loop of section 4.4 on the jobs the store returned. In
    the router test the store is updated once for the picked-up
    jobs, the drained jobs are stored in the error queue and their
    rows written in one transaction. *)
Definition readAndProcess (now jobRetention : Z) (jobs : list JobT) : M event Z :=
  let '(drainList, statusList, drainJobList, toProcess) :=
    classify now jobRetention jobs [] [] [] [] in
  do emit (EvUpdateJobStatus statusList);;
  do (if GoInt.len drainList >? 0 then
        do emit (EvStoreProcError drainJobList);;
        emit (EvUpdateJobStatusInTx drainList)
      else ret tt);;
  do dispatch toProcess;;
  ret (GoInt.len toProcess).

(** *** Sample data: the job and the retention of the router test
    "aborts events that are older than a configurable duration" *)

(** 2020-04-28 13:26:00 UTC, in nanoseconds since the epoch. *)
Definition testCreatedAt : Z := 1588080360 * 1000 * 1000 * 1000.

Definition testJob : JobT :=
  Job.mk "2f548e6d-60f6-44af-a1f4-62b3272445c3" 2010 "u1"
    testCreatedAt testCreatedAt "GA" "{}"
    (JobStatus.mk 0 NotPicked 0 0 0 "" "" "" "") "{}" "workspace".

Definition testJobRetention : Z := 24 * Hour.



End Router.

(* ===================================================================== *)
(** * Part II: the properties *)
(* ===================================================================== *)

(** ** Machine integers *)
Module GoIntFacts.
Import GoInt.

Lemma wrap_in_range z : in_range z -> wrap z = z.
Proof.
  unfold in_range, wrap, min_int, max_int. intros H.
  rewrite Z.mod_small; lia.
Qed.

Lemma add_1_no_overflow z : in_range z -> z < max_int -> add z 1 = z + 1.
Proof.
  intros [Hlo Hhi] Hlt. unfold add. apply wrap_in_range.
  unfold in_range, min_int, max_int in *. lia.
Qed.

Lemma add_1_max_int : add max_int 1 = min_int.
Proof. reflexivity. Qed.

End GoIntFacts.

(** ** The writer/error monad *)
Section MonadFacts.
Context {E : Type}.

Lemma bind_ok {A B} (c : M E A) (k : A -> M E B) tr a :
  c = (tr, Ok a) -> bind c k = (tr ++ fst (k a), snd (k a)).
Proof. intros ->. simpl. by destruct (k a). Qed.

Lemma bind_panicked {A B} (c : M E A) (k : A -> M E B) tr p :
  c = (tr, Panicked p) -> bind c k = (tr, Panicked p).
Proof. by intros ->. Qed.

Lemma fst_bind {A B} (c : M E A) (k : A -> M E B) :
  fst (bind c k) =
  fst c ++ match snd c with Ok a => fst (k a) | Panicked _ => [] end.
Proof.
  destruct c as [tr [a|p]]; simpl.
  - by destruct (k a).
  - by rewrite app_nil_r.
Qed.

End MonadFacts.

(** ** The error stash *)
Module StashFacts.
Import Jobsdb Filemanager Stash.

(** The attempt number of the last status recorded for a job. *)
Local Abbreviation lastAttempt job := (JobStatus.AttemptNum (Job.LastJobStatus job)).

(** *** [setErrJobStatus] *)

Lemma errJobStatuses_acc cfg w output jobs : forall n statusList,
  errJobStatuses cfg w output jobs n statusList =
  statusList ++ errJobStatuses cfg w output jobs n [].
Proof.
  induction jobs as [|job jobs IH]; intros n statusList; simpl.
  - by rewrite app_nil_r.
  - destruct (Error output) as [msg|];
      rewrite IH; symmetry; rewrite IH; by rewrite app_assoc.
Qed.

Lemma fst_setErrJobStatus cfg w jobs output :
  fst (setErrJobStatus cfg w jobs output) =
  [EvUpdateJobStatus (errJobStatuses cfg w output jobs 0 [])].
Proof.
  unfold setErrJobStatus. rewrite fst_bind. simpl.
  by destruct (UpdateJobStatus w _).
Qed.

(** An upload without error: both jobs succeed, attempt bumped. *)
Example setErrJobStatus_ok :
  map (fun s => (JobStatus.JobID s, JobStatus.JobState s, JobStatus.AttemptNum s))
    (errJobStatuses defaultConfig (sampleWorld [] [])
       {| Location := "loc"; Error := None |}
       [sampleJob 11 0 "s"; sampleJob 12 5 "s"] 0 [])
  = [(11, Succeeded, 1); (12, Succeeded, 6)].
Proof. reflexivity. Qed.

(** A failed upload: attempts 2, 3 and 4 against the limit of 3. *)
Example setErrJobStatus_error :
  map (fun s => (JobStatus.JobID s, JobStatus.JobState s, JobStatus.AttemptNum s))
    (errJobStatuses defaultConfig (sampleWorld [] [])
       {| Location := ""; Error := Some "timeout" |}
       [sampleJob 11 2 "s"; sampleJob 12 3 "s"; sampleJob 13 4 "s"] 0 [])
  = [(11, Failed, 3); (12, Aborted, 4); (13, Aborted, 5)].
Proof. reflexivity. Qed.

(** C6. For every batch of jobs and every upload outcome,
    [setErrJobStatus] hands [UpdateJobStatus] one status per job, in
    order, whose state is [Succeeded] when the upload returned no
    error; when it returned an error the state is [Failed], with the
    attempt number one above the job's last one, unless the job's
    last attempt number has reached [maxFailedCountForErrJob], in
    which case the state is [Aborted]. *)
Theorem setErrJobStatus_states cfg w jobs output :
  GoInt.in_range (maxFailedCountForErrJob cfg) ->
  Forall (fun job => GoInt.in_range (lastAttempt job)) jobs ->
  exists statusList,
    fst (setErrJobStatus cfg w jobs output) = [EvUpdateJobStatus statusList] /\
    Forall2 (fun job status =>
               JobStatus.JobID status = Job.JobID job /\
               (Error output = None ->
                JobStatus.JobState status = Succeeded) /\
               (Error output <> None ->
                lastAttempt job < maxFailedCountForErrJob cfg ->
                JobStatus.JobState status = Failed /\
                JobStatus.AttemptNum status = lastAttempt job + 1) /\
               (Error output <> None ->
                maxFailedCountForErrJob cfg <= lastAttempt job ->
                JobStatus.JobState status = Aborted))
            jobs statusList.
Proof.
  intros Hmax Hjobs. eexists. split; [apply fst_setErrJobStatus|].
  generalize 0%nat as n.
  induction Hjobs as [|job jobs Hjob Hjobs IH]; intros n; simpl; [constructor|].
  destruct (Error output) as [msg|] eqn:Herr;
    rewrite errJobStatuses_acc; simpl; constructor; try apply IH; simpl.
  - split; [done|]. split; [done|].
    destruct (Z.geb_spec (lastAttempt job) (maxFailedCountForErrJob cfg)).
    + split; [lia | done].
    + split; [| lia]. intros _ _. split; [done|].
      apply GoIntFacts.add_1_no_overflow; [done|].
      destruct Hmax. lia.
  - split; [done|]. split; [done|]. split; intros; congruence.
Qed.

Lemma setErrJobStatus_states_witness :
  exists statusList,
    fst (setErrJobStatus defaultConfig (sampleWorld [] [])
           [sampleJob 11 2 "s"; sampleJob 12 3 "s"]
           {| Location := ""; Error := Some "timeout" |})
    = [EvUpdateJobStatus statusList] /\
    Forall2 (fun job status =>
               JobStatus.JobID status = Job.JobID job /\
               (Error {| Location := ""; Error := Some "timeout" |} = None ->
                JobStatus.JobState status = Succeeded) /\
               (Error {| Location := ""; Error := Some "timeout" |} <> None ->
                lastAttempt job < maxFailedCountForErrJob defaultConfig ->
                JobStatus.JobState status = Failed /\
                JobStatus.AttemptNum status = lastAttempt job + 1) /\
               (Error {| Location := ""; Error := Some "timeout" |} <> None ->
                maxFailedCountForErrJob defaultConfig <= lastAttempt job ->
                JobStatus.JobState status = Aborted))
            [sampleJob 11 2 "s"; sampleJob 12 3 "s"] statusList.
Proof.
  apply (setErrJobStatus_states defaultConfig (sampleWorld [] [])
           [sampleJob 11 2 "s"; sampleJob 12 3 "s"]
           {| Location := ""; Error := Some "timeout" |}).
  - unfold GoInt.in_range, GoInt.min_int, GoInt.max_int; simpl; lia.
  - repeat constructor; unfold GoInt.min_int, GoInt.max_int; simpl; lia.
Defined.

(** *** [readErrJobsLoop]: the rows and the batch of one read *)

(** The row that the loop of [markAndSend] writes for a job. *)
Lemma markJobs_acc w canUpload jobState combinedList :
  forall n filteredJobList statusList,
    markJobs w canUpload jobState combinedList n filteredJobList statusList =
    (filteredJobList ++ fst (markJobs w canUpload jobState combinedList n [] []),
     statusList ++ snd (markJobs w canUpload jobState combinedList n [] [])).
Proof.
  induction combinedList as [|job jobs IH]; intros n fl sl; simpl.
  - by rewrite !app_nil_r.
  - destruct canUpload; [destruct (ApplyJob w job)|];
      match goal with
      | |- markJobs _ _ _ _ _ ?fl' ?sl' = _ =>
          rewrite (IH _ fl' sl');
          match goal with
          | |- _ = (_ ++ fst (markJobs _ _ _ _ _ ?fl0 ?sl0), _) =>
              rewrite (IH _ fl0 sl0)
          end
      end; simpl; by rewrite <- ?app_assoc.
Qed.

Lemma markJobs_filtered w jobState combinedList : forall n,
  fst (markJobs w true jobState combinedList n [] []) =
  filter (fun job => ApplyJob w job = false) combinedList.
Proof.
  induction combinedList as [|job jobs IH]; intros n; simpl; [done|].
  rewrite filter_cons.
  by destruct (ApplyJob w job) eqn:Happly; rewrite markJobs_acc; simpl; rewrite IH.
Qed.

Lemma markJobs_statuses w canUpload jobState combinedList : forall n,
  Forall2 (fun job status =>
             JobStatus.JobID status = Job.JobID job /\
             JobStatus.AttemptNum status = GoInt.add (lastAttempt job) 1 /\
             JobStatus.JobState status =
               if canUpload && ApplyJob w job then Aborted else jobState)
          combinedList (snd (markJobs w canUpload jobState combinedList n [] [])).
Proof.
  induction combinedList as [|job jobs IH]; intros n; simpl; [constructor|].
  destruct canUpload; [destruct (ApplyJob w job) eqn:Happly|];
    rewrite markJobs_acc; simpl; constructor; try apply IH; simpl;
    rewrite ?Happly; done.
Qed.

Lemma markAndSend_trace w canUpload combinedList :
  let r := markJobs w canUpload (if canUpload then Executing else Aborted)
             combinedList 0 (if canUpload then [] else combinedList) [] in
  markAndSend w canUpload combinedList =
  match UpdateJobStatus w (snd r) with
  | Some err => ([EvUpdateJobStatus (snd r)], Panicked (PanicError err))
  | None =>
      ([EvUpdateJobStatus (snd r)] ++
       (if canUpload && (GoInt.len (fst r) >? 0) then [EvSend (fst r)] else []),
       Ok tt)
  end.
Proof.
  unfold markAndSend. simpl.
  destruct (markJobs _ _ _ _ _ _ _) as [fl sl]; simpl.
  destruct (UpdateJobStatus w sl); simpl; [done|].
  by destruct (canUpload && _).
Qed.

Lemma len_pos {A} (l : list A) : (GoInt.len l >? 0) = bool_decide (l <> []).
Proof. destruct l; reflexivity. Qed.

Lemma len_zero {A} (l : list A) : (GoInt.len l =? 0) = bool_decide (l = []).
Proof. destruct l; reflexivity. Qed.

(** Two transient jobs around one that is not: the first and third
    are aborted, the second is marked executing and is the batch. *)
Example readErrJobs_sample :
  let w := sampleWorld [sampleJob 1 0 "transient"]
             [sampleJob 2 0 "s"; sampleJob 3 1 "transient"] in
  let tr := fst (readErrJobs defaultConfig w {| errFileUploader := None |}) in
  map (map (fun s => (JobStatus.JobID s, JobStatus.JobState s, JobStatus.AttemptNum s)))
    (written tr) = [[(1, Aborted, 1); (2, Executing, 1); (3, Aborted, 2)]] /\
  sent tr = [[sampleJob 2 0 "s"]].
Proof. split; reflexivity. Qed.

(** C7, as stated, fails when the error queue refuses the status
    update: uploading is possible and the job read is not of a
    transient source, yet the read panics on the error of
    [UpdateJobStatus] before the send, so the job is in no batch. *)
Lemma refused_update_sends_nothing :
  let job := sampleJob 2 0 "s" in
  let w := sampleWorldRejecting [] [job] in
  let st := {| errFileUploader := None |} in
  readJobs defaultConfig w = ([], Ok [job]) /\
  canUpload defaultConfig w st =
    ([], Ok ({| errFileUploader := Some sampleUploader |}, true)) /\
  ApplyJob w job = false /\
  sent (fst (readErrJobs defaultConfig w st)) = [] /\
  snd (readErrJobs defaultConfig w st) = Panicked (PanicError "connection refused") /\
  ~ exists batch, batch ∈ sent (fst (readErrJobs defaultConfig w st)) /\ job ∈ batch.
Proof.
  repeat split; try reflexivity.
  intros (batch & Hbatch & _).
  change (sent _) with (@nil (list JobT)) in Hbatch.
  by apply elem_of_nil in Hbatch.
Qed.

(** C7, amended. For every job read from the proc_error queue while
    uploading is possible ([canUpload] is true) and the error queue
    accepts the status update ([UpdateJobStatus] returns no error):
    if the transient source service applies to the job, its status is
    [Aborted] and it is in no batch sent for upload; otherwise its
    status is [Executing] and it is in the batch that is sent. *)
Theorem readErrJobs_transient_sources cfg w st st' combinedList :
  readJobs cfg w = ([], Ok combinedList) ->
  canUpload cfg w st = ([], Ok (st', true)) ->
  (forall statusList, UpdateJobStatus w statusList = None) ->
  exists tr st'' statusList,
    readErrJobs cfg w st = (tr, Ok st'') /\
    (combinedList <> [] -> written tr = [statusList]) /\
    Forall2 (fun job status =>
               JobStatus.JobID status = Job.JobID job /\
               JobStatus.JobState status =
                 if ApplyJob w job then Aborted else Executing)
            combinedList statusList /\
    forall job, job ∈ combinedList ->
      (ApplyJob w job = true ->
       forall batch, batch ∈ sent tr -> job ∉ batch) /\
      (ApplyJob w job = false ->
       exists batch, sent tr = [batch] /\ job ∈ batch).
Proof.
  intros Hread Hcan Hupdate.
  pose proof (markJobs_statuses w true Executing combinedList 0) as Hst.
  pose proof (markJobs_filtered w Executing combinedList 0) as Hfl.
  unfold readErrJobs. rewrite (bind_ok _ _ _ _ Hread). simpl.
  rewrite len_zero. case_bool_decide as Hnil.
  - subst combinedList. exists [], st, []. simpl.
    split; [done|]. split; [done|]. split; [constructor|].
    intros job Hin. by apply elem_of_nil in Hin.
  - rewrite (bind_ok _ _ _ _ Hcan). simpl.
    rewrite markAndSend_trace. simpl.
    rewrite Hupdate. simpl. rewrite len_pos.
    set (r := markJobs w true Executing combinedList 0 [] []) in *.
    exists ([EvUpdateJobStatus (snd r)] ++
            (if bool_decide (fst r <> []) then [EvSend (fst r)] else []) ++ []),
      st', (snd r).
    split; [by destruct (bool_decide _)|].
    split; [intros _; by destruct (bool_decide _)|].
    split.
    { eapply Forall2_impl; [exact Hst|]. simpl. intros job status (? & _ & ?). done. }
    intros job Hin. split.
    + intros Happly batch Hbatch.
      case_bool_decide; simpl in Hbatch.
      * apply list_elem_of_singleton in Hbatch. subst batch.
        rewrite Hfl. rewrite list_elem_of_filter. intros [? _]. congruence.
      * by apply elem_of_nil in Hbatch.
    + intros Happly.
      assert (job ∈ fst r) as Hjob.
      { rewrite Hfl. apply list_elem_of_filter. done. }
      rewrite bool_decide_true.
      * exists (fst r). done.
      * intros Hempty. rewrite Hempty in Hjob. by apply elem_of_nil in Hjob.
Qed.

Lemma readErrJobs_transient_sources_witness :
  let w := sampleWorld [sampleJob 1 0 "transient"] [sampleJob 2 0 "s"] in
  let combinedList := [sampleJob 1 0 "transient"; sampleJob 2 0 "s"] in
  exists tr st'' statusList,
    readErrJobs defaultConfig w {| errFileUploader := None |} = (tr, Ok st'') /\
    (combinedList <> [] -> written tr = [statusList]) /\
    Forall2 (fun job status =>
               JobStatus.JobID status = Job.JobID job /\
               JobStatus.JobState status =
                 if ApplyJob w job then Aborted else Executing)
            combinedList statusList /\
    forall job, job ∈ combinedList ->
      (ApplyJob w job = true ->
       forall batch, batch ∈ sent tr -> job ∉ batch) /\
      (ApplyJob w job = false ->
       exists batch, sent tr = [batch] /\ job ∈ batch).
Proof.
  intros w combinedList.
  apply (readErrJobs_transient_sources defaultConfig w
           {| errFileUploader := None |}
           {| errFileUploader := Some sampleUploader |} combinedList).
  - reflexivity.
  - reflexivity.
  - intros statusList. reflexivity.
Defined.

(** *** What is sent on [errProcessQ] *)

Lemma sent_app tr1 tr2 : sent (tr1 ++ tr2) = sent tr1 ++ sent tr2.
Proof. unfold sent. apply omap_app. Qed.

Lemma fst_must {A} (r : A + string) : fst (must (E := event) r) = [].
Proof. by destruct r. Qed.

Lemma fst_readJobs cfg w : fst (readJobs cfg w) = [].
Proof.
  unfold readJobs. rewrite fst_bind, fst_must. simpl.
  destruct (GetToRetry w _) as [toRetry|err]; simpl; [|done].
  destruct (LimitsReached toRetry); simpl; [done|].
  rewrite fst_bind, fst_must. simpl.
  by destruct (GetUnprocessed w _).
Qed.

Lemma fst_canUpload cfg w st : fst (canUpload cfg w st) = [].
Proof.
  unfold canUpload, getFileUploader, setupFileUploader.
  destruct (backupEnabled cfg w); simpl; [|done].
  destruct (bool_decide (errFileUploader st = None)); simpl; [|done].
  destruct (bool_decide _ && bool_decide _); simpl; [|done].
  by destruct (FileManagerFactory_New w _).
Qed.

Lemma sent_markAndSend w canUpload combinedList batch :
  batch ∈ sent (fst (markAndSend w canUpload combinedList)) -> batch <> [].
Proof.
  rewrite markAndSend_trace. simpl.
  destruct (UpdateJobStatus w _); simpl.
  - intros H. by apply elem_of_nil in H.
  - rewrite len_pos. destruct canUpload; simpl.
    + case_bool_decide as Hne; simpl; intros H.
      * apply list_elem_of_singleton in H. by subst.
      * by apply elem_of_nil in H.
    + intros H. by apply elem_of_nil in H.
Qed.

Lemma sent_readErrJobs cfg w st batch :
  batch ∈ sent (fst (readErrJobs cfg w st)) -> batch <> [].
Proof.
  unfold readErrJobs. rewrite fst_bind, fst_readJobs. simpl.
  destruct (snd (readJobs cfg w)) as [combinedList|p]; simpl.
  - destruct (GoInt.len combinedList =? 0); simpl.
    + intros H. by apply elem_of_nil in H.
    + rewrite fst_bind, fst_canUpload. simpl.
      destruct (snd (canUpload cfg w st)) as [r|p]; simpl.
      * rewrite fst_bind.
        destruct (snd (markAndSend w (snd r) combinedList));
          simpl; rewrite ?app_nil_r; apply sent_markAndSend.
      * intros H. by apply elem_of_nil in H.
  - intros H. by apply elem_of_nil in H.
Qed.

Lemma sent_readErrJobsLoop cfg ticks : forall st batch,
  batch ∈ sent (fst (readErrJobsLoop cfg ticks st)) -> batch <> [].
Proof.
  induction ticks as [|[|w] ticks IH]; intros st batch; simpl.
  - intros H. by apply elem_of_nil in H.
  - intros H. by apply elem_of_nil in H.
  - rewrite fst_bind, sent_app, elem_of_app. intros [H|H].
    + by apply sent_readErrJobs in H.
    + destruct (snd (readErrJobs cfg w st)) as [st'|p].
      * by apply IH in H.
      * by apply elem_of_nil in H.
Qed.

(** *** No index panic in [storeErrorsToObjectStorage] *)

Lemma noIndexPanic_bind {A B} (c : M event A) (k : A -> M event B) :
  noIndexPanic c -> (forall a, noIndexPanic (k a)) -> noIndexPanic (bind c k).
Proof.
  unfold noIndexPanic. destruct c as [tr [a|p]]; simpl; intros Hc Hk.
  - specialize (Hk a). by destruct (k a).
  - congruence.
Qed.

Lemma noIndexPanic_must {A} (r : A + string) : noIndexPanic (must r).
Proof. by destruct r. Qed.

Lemma noIndexPanic_check (err : option string) : noIndexPanic (check err).
Proof. by destruct err. Qed.

Lemma noIndexPanic_emit (e : event) : noIndexPanic (emit e).
Proof. done. Qed.

Lemma noIndexPanic_defer {A} (e : event) (c : M event A) :
  noIndexPanic c -> noIndexPanic (defer e c).
Proof. unfold noIndexPanic, defer. by destruct c. Qed.

Lemma noIndexPanic_marshalJobs w jobs : forall contentSlice,
  noIndexPanic (marshalJobs w jobs contentSlice).
Proof.
  induction jobs as [|job jobs IH]; intros contentSlice; simpl; [done|].
  apply noIndexPanic_bind; [apply noIndexPanic_must | intros; apply IH].
Qed.

Lemma storeErrors_noIndexPanic w st jobs :
  jobs <> [] -> noIndexPanic (storeErrorsToObjectStorage w st jobs).
Proof.
  intros Hjobs. unfold storeErrorsToObjectStorage.
  apply noIndexPanic_bind; [apply noIndexPanic_must | intros uuid].
  apply noIndexPanic_bind; [apply noIndexPanic_must | intros tmpDirPath].
  destruct jobs as [|job jobs]; [done|].
  apply noIndexPanic_bind; [done | intros first].
  apply noIndexPanic_bind.
  { unfold index.
    destruct (lookup_lt_is_Some_2 (job :: jobs) (length (job :: jobs) - 1)%nat)
      as [last Hlast]; [simpl; lia|].
    by rewrite Hlast. }
  intros last.
  repeat (apply noIndexPanic_bind;
          [first [apply noIndexPanic_emit | apply noIndexPanic_check] | intros _]).
  apply noIndexPanic_defer.
  apply noIndexPanic_bind; [apply noIndexPanic_marshalJobs | intros contentSlice].
  repeat (apply noIndexPanic_bind;
          [first [apply noIndexPanic_emit | apply noIndexPanic_check] | intros _]).
  destruct (errFileUploader st) as [uploader|]; [|done].
  apply noIndexPanic_bind; [apply noIndexPanic_emit | intros _].
  by destruct (Upload uploader _ _).
Qed.

(** C9. Every job list that [readErrJobsLoop] sends on [errProcessQ]
    is non-empty, so [storeErrorsToObjectStorage], which a worker
    calls on each list it receives, never panics on [jobs[0]] or
    [jobs[len(jobs)-1]]. *)
Theorem errProcessQ_batches_nonempty cfg ticks st batch :
  batch ∈ sent (fst (readErrJobsLoop cfg ticks st)) ->
  batch <> [] /\
  forall w st',
    snd (storeErrorsToObjectStorage w st' batch) <> Panicked IndexOutOfRange.
Proof.
  intros Hsent. apply sent_readErrJobsLoop in Hsent. split; [done|].
  intros w st'. by apply storeErrors_noIndexPanic.
Qed.

Lemma errProcessQ_batches_nonempty_witness :
  let batch := [sampleJob 2 0 "s"] in
  batch <> [] /\
  forall w st',
    snd (storeErrorsToObjectStorage w st' batch) <> Panicked IndexOutOfRange.
Proof.
  apply (errProcessQ_batches_nonempty defaultConfig
           [TimeAfter (sampleWorld [sampleJob 1 0 "transient"] [sampleJob 2 0 "s"]);
            CtxDone]
           {| errFileUploader := None |}).
  vm_compute. apply list_elem_of_here.
Defined.

(** *** The file that [storeErrorsToObjectStorage] uploads *)

Lemma append_cons a (s1 s2 : string) : String a s1 +:+ s2 = String a (s1 +:+ s2).
Proof. reflexivity. Qed.

Lemma append_assoc (s1 s2 s3 : string) : (s1 +:+ s2) +:+ s3 = s1 +:+ (s2 +:+ s3).
Proof.
  induction s1 as [|a s1 IH]; [reflexivity|].
  rewrite !append_cons. by rewrite IH.
Qed.

Lemma marshalJobs_ok w jobs : forall contentSlice,
  (forall job, job ∈ jobs -> exists rawJob, json_Marshal w job = inl rawJob) ->
  exists rawJobs, marshalJobs w jobs contentSlice = ([], Ok rawJobs).
Proof.
  induction jobs as [|job jobs IH]; intros contentSlice Hjobs; simpl.
  - by eexists.
  - destruct (Hjobs job) as [rawJob Hraw]; [apply list_elem_of_here|].
    rewrite Hraw. simpl.
    destruct (IH (contentSlice ++ [rawJob])) as [rawJobs Hrest].
    { intros job' Hin. apply Hjobs. by apply list_elem_of_further. }
    rewrite Hrest. by eexists.
Qed.

(** The batch of jobs 2010 to 2012 on instance 7. *)
Example storeErrors_sample :
  let w := sampleWorld [] [] in
  let path := "/tmp/rudder-processor-errors/1656000000.7.2010-2012.6ba7b810-9dad-11d1-80b4-00c04fd430c8.json.gz" in
  fst (storeErrorsToObjectStorage w {| errFileUploader := Some sampleUploader |}
         [sampleJob 2010 0 "s"; sampleJob 2011 0 "s"; sampleJob 2012 0 "s"])
  = [EvMkdirAll "/tmp/rudder-processor-errors";
     EvCreateGZ path;
     EvWriteGZ path ("2010" +:+ newline +:+ "2011" +:+ newline +:+ "2012");
     EvCloseGZ path;
     EvOpen path;
     EvUpload path ["rudder-proc-err-logs"; "06-23-2022"];
     EvRemove path].
Proof. reflexivity. Qed.

(** An empty batch panics on [jobs[0]]. *)
Example storeErrors_empty :
  storeErrorsToObjectStorage (sampleWorld [] [])
    {| errFileUploader := Some sampleUploader |} []
  = ([], Panicked IndexOutOfRange).
Proof. reflexivity. Qed.

(** C8. For every non-empty batch of jobs, whenever
    [storeErrorsToObjectStorage] gets as far as an upload (no step
    before it panics), the file it creates through the gzip writer,
    writes, opens and uploads is the one file
    [tmpdir/rudder-processor-errors/ts.instance.firstId-lastId.uuid.json.gz],
    where [firstId] and [lastId] are the [JobID]s of the first and
    the last job of the batch, [ts] is the current unix time,
    [instance] is [GetEnv("INSTANCE_ID", "1")] and [uuid] a fresh
    UUID; the file is removed afterwards. *)
Theorem storeErrors_file_name w st jobs firstJob lastJob uuid tmpDirPath uploader :
  head jobs = Some firstJob ->
  last jobs = Some lastJob ->
  uuid_NewV4 w = inl uuid ->
  CreateTMPDIR w = inl tmpDirPath ->
  (forall dir, MkdirAll w dir = None) ->
  (forall path, CreateGZ w path = None) ->
  (forall job, job ∈ jobs -> exists rawJob, json_Marshal w job = inl rawJob) ->
  (forall path content, gz_Write w path content = None) ->
  (forall path, CloseGZ w path = None) ->
  (forall path, os_Open w path = None) ->
  errFileUploader st = Some uploader ->
  let name :=
    pretty (time_Now_Unix w) +:+ "." +:+ GetEnv w "INSTANCE_ID" "1" +:+ "." +:+
    pretty (Job.JobID firstJob) +:+ "-" +:+ pretty (Job.JobID lastJob) +:+ "." +:+
    uuid +:+ ".json.gz" in
  let path := tmpDirPath +:+ "/rudder-processor-errors/" +:+ name in
  let prefixes := ["rudder-proc-err-logs"; time_Now_Format w] in
  exists content,
    storeErrorsToObjectStorage w st jobs =
    ([EvMkdirAll (filepath_Dir w path);
      EvCreateGZ path;
      EvWriteGZ path content;
      EvCloseGZ path;
      EvOpen path;
      EvUpload path prefixes;
      EvRemove path],
     Ok {| Location := Filemanager.Location (fst (Upload uploader path prefixes));
           Error := snd (Upload uploader path prefixes) |}).
Proof.
  intros Hfirst Hlast Huuid Htmp Hmkdir Hcreate Hmarshal Hwrite Hclose Hopen Hup.
  intros name path prefixes.
  destruct (marshalJobs_ok w jobs [] Hmarshal) as [rawJobs Hraw].
  exists (String.concat newline rawJobs).
  assert (jobs !! (length jobs - 1)%nat = Some lastJob) as Hlast'.
  { by rewrite Nat.sub_1_r, <- last_lookup. }
  unfold storeErrorsToObjectStorage.
  rewrite Huuid, Htmp. simpl.
  unfold index. rewrite <- head_lookup, Hfirst. simpl.
  rewrite Hlast'. simpl.
  assert (((tmpDirPath +:+ "/rudder-processor-errors/") +:+
           fileName w firstJob lastJob uuid +:+ ".json") +:+ ".gz" = path) as ->.
  { unfold fileName, path, name. by rewrite !append_assoc. }
  rewrite Hmkdir, Hcreate. simpl.
  rewrite Hraw. simpl.
  rewrite Hwrite, Hclose, Hopen, Hup. simpl.
  fold prefixes.
  by destruct (Upload uploader path prefixes).
Qed.

Lemma storeErrors_file_name_witness :
  let w := sampleWorld [] [] in
  let jobs := [sampleJob 2010 0 "s"; sampleJob 2011 0 "s"; sampleJob 2012 0 "s"] in
  let path := "/tmp/rudder-processor-errors/1656000000.7.2010-2012.6ba7b810-9dad-11d1-80b4-00c04fd430c8.json.gz" in
  let prefixes := ["rudder-proc-err-logs"; "06-23-2022"] in
  exists content,
    storeErrorsToObjectStorage w {| errFileUploader := Some sampleUploader |} jobs =
    ([EvMkdirAll "/tmp/rudder-processor-errors";
      EvCreateGZ path;
      EvWriteGZ path content;
      EvCloseGZ path;
      EvOpen path;
      EvUpload path prefixes;
      EvRemove path],
     Ok {| Location := "s3://bucket/" +:+ path; Error := None |}).
Proof.
  intros w jobs path prefixes.
  apply (storeErrors_file_name w {| errFileUploader := Some sampleUploader |} jobs
           (sampleJob 2010 0 "s") (sampleJob 2012 0 "s")
           "6ba7b810-9dad-11d1-80b4-00c04fd430c8" "/tmp" sampleUploader);
    try reflexivity.
  intros job _. by eexists.
Defined.

(** *** Attempt numbers *)

Lemma written_markAndSend w canUpload combinedList :
  written (fst (markAndSend w canUpload combinedList)) =
  [snd (markJobs w canUpload (if canUpload then Executing else Aborted)
          combinedList 0 (if canUpload then [] else combinedList) [])].
Proof.
  rewrite markAndSend_trace. simpl.
  destruct (UpdateJobStatus w _); simpl; [done|].
  by destruct (canUpload && _).
Qed.

Lemma markJobs_statuses_acc w canUpload jobState combinedList n filteredJobList :
  snd (markJobs w canUpload jobState combinedList n filteredJobList []) =
  snd (markJobs w canUpload jobState combinedList n [] []).
Proof. by rewrite markJobs_acc. Qed.

Lemma errJobStatuses_attempts cfg w output jobs : forall n,
  Forall2 (fun job status =>
             JobStatus.JobID status = Job.JobID job /\
             JobStatus.AttemptNum status = GoInt.add (lastAttempt job) 1)
          jobs (errJobStatuses cfg w output jobs n []).
Proof.
  induction jobs as [|job jobs IH]; intros n; simpl; [constructor|].
  destruct (Error output); rewrite errJobStatuses_acc; simpl;
    constructor; try apply IH; done.
Qed.

(** Job 7 was last recorded with attempt 2: the row written when it
    is read and the row written after the upload both carry 3. *)
Example attempts_sample :
  let job := sampleJob 7 2 "s" in
  map (map JobStatus.AttemptNum)
    (written (fst (markAndSend (sampleWorld [] []) true [job]))) = [[3]] /\
  map (map JobStatus.AttemptNum)
    (written (fst (setErrJobStatus defaultConfig (sampleWorld [] []) [job]
                     {| Location := ""; Error := Some "timeout" |}))) = [[3]].
Proof. split; reflexivity. Qed.

(** C2, as stated, fails at the largest [int]: for a job whose last
    recorded attempt number is [max_int], [AttemptNum + 1] wraps
    around, and both rows the stash writes carry [min_int], which is
    not greater. *)
Lemma attempt_number_wraps :
  let job := sampleJob 7 GoInt.max_int "s" in
  GoInt.in_range (lastAttempt job) /\
  exists row1 row2,
    written (fst (markAndSend (sampleWorld [] []) true [job])) = [[row1]] /\
    written (fst (setErrJobStatus defaultConfig (sampleWorld [] []) [job]
                    {| Location := ""; Error := None |})) = [[row2]] /\
    JobStatus.JobID row1 = Job.JobID job /\
    JobStatus.JobID row2 = Job.JobID job /\
    ~ lastAttempt job < JobStatus.AttemptNum row1 /\
    ~ lastAttempt job < JobStatus.AttemptNum row2.
Proof.
  split; [unfold GoInt.in_range, GoInt.min_int, GoInt.max_int; simpl; lia|].
  eexists _, _. repeat split; try reflexivity; vm_compute; discriminate.
Qed.

(** C2, amended. For every job whose last recorded attempt number is
    below the largest [int], every status row the error stash writes
    for it (the [Executing] or [Aborted] row written when the job is
    read from the proc_error queue, and the terminal row written
    after the upload attempt) carries the last recorded attempt
    number plus one, which is strictly greater than the last recorded
    one; the terminal row carries the same attempt number as the row
    written at the read, so the attempt numbers of the job's rows
    never decrease. *)
Theorem attempt_numbers_increase cfg w w' canUpload output jobs :
  Forall (fun job => GoInt.min_int <= lastAttempt job < GoInt.max_int) jobs ->
  exists rows1 rows2,
    written (fst (markAndSend w canUpload jobs)) = [rows1] /\
    written (fst (setErrJobStatus cfg w' jobs output)) = [rows2] /\
    Forall2 (fun job row =>
               JobStatus.JobID row = Job.JobID job /\
               JobStatus.AttemptNum row = lastAttempt job + 1 /\
               lastAttempt job < JobStatus.AttemptNum row) jobs rows1 /\
    Forall2 (fun job row =>
               JobStatus.JobID row = Job.JobID job /\
               JobStatus.AttemptNum row = lastAttempt job + 1 /\
               lastAttempt job < JobStatus.AttemptNum row) jobs rows2 /\
    Forall2 (fun row1 row2 =>
               JobStatus.JobID row1 = JobStatus.JobID row2 /\
               JobStatus.AttemptNum row1 = JobStatus.AttemptNum row2 /\
               JobStatus.AttemptNum row1 <= JobStatus.AttemptNum row2) rows1 rows2.
Proof.
  intros Hjobs.
  pose proof (markJobs_statuses w canUpload
                (if canUpload then Executing else Aborted) jobs 0) as H1.
  pose proof (errJobStatuses_attempts cfg w' output jobs 0) as H2.
  eexists _, _.
  split; [apply written_markAndSend|].
  split; [by rewrite fst_setErrJobStatus|].
  rewrite markJobs_statuses_acc.
  set (rows1 := snd (markJobs _ _ _ _ _ _ _)) in *.
  set (rows2 := errJobStatuses _ _ _ _ _ _) in *.
  clearbody rows1 rows2.
  revert rows2 H2.
  induction H1 as [|job row1 jobs rows1 (Hid1 & Hat1 & _) H1 IH];
    intros rows2 H2; inversion H2 as [|? row2 ? rows2' [Hid2 Hat2] H2']; subst.
  - repeat split; constructor.
  - apply Forall_cons in Hjobs as [[Hlo Hhi] Hjobs].
    destruct (IH Hjobs _ H2') as (IH1 & IH2 & IH3).
    assert (GoInt.add (lastAttempt job) 1 = lastAttempt job + 1) as Hadd.
    { apply GoIntFacts.add_1_no_overflow; [|done].
      unfold GoInt.in_range. lia. }
    rewrite Hadd in Hat1, Hat2.
    split; [|split]; constructor; try done.
    + split; [done|]. split; [done | lia].
    + split; [done|]. split; [done | lia].
    + split; [congruence|]. split; lia.
Qed.

Lemma attempt_numbers_increase_witness :
  let jobs := [sampleJob 7 2 "s"; sampleJob 8 0 "transient"] in
  exists rows1 rows2,
    written (fst (markAndSend (sampleWorld [] []) true jobs)) = [rows1] /\
    written (fst (setErrJobStatus defaultConfig (sampleWorld [] []) jobs
                    {| Location := ""; Error := Some "timeout" |})) = [rows2] /\
    Forall2 (fun job row =>
               JobStatus.JobID row = Job.JobID job /\
               JobStatus.AttemptNum row = lastAttempt job + 1 /\
               lastAttempt job < JobStatus.AttemptNum row) jobs rows1 /\
    Forall2 (fun job row =>
               JobStatus.JobID row = Job.JobID job /\
               JobStatus.AttemptNum row = lastAttempt job + 1 /\
               lastAttempt job < JobStatus.AttemptNum row) jobs rows2 /\
    Forall2 (fun row1 row2 =>
               JobStatus.JobID row1 = JobStatus.JobID row2 /\
               JobStatus.AttemptNum row1 = JobStatus.AttemptNum row2 /\
               JobStatus.AttemptNum row1 <= JobStatus.AttemptNum row2) rows1 rows2.
Proof.
  intros jobs.
  apply (attempt_numbers_increase defaultConfig (sampleWorld [] []) (sampleWorld [] [])
           true {| Location := ""; Error := Some "timeout" |} jobs).
  repeat constructor; unfold GoInt.min_int, GoInt.max_int; simpl; lia.
Defined.

(** *** When the stash can upload *)

(** X10. [canUpload] is false exactly when the backup is not enabled,
    or when the handle has no uploader yet and the provider or the
    bucket of the backup is not set in the environment; the handle is
    then left as it is. A handle that has an uploader keeps it: the
    factory is not consulted again, and [canUpload] is whether the
    backup is enabled. *)
Theorem canUpload_false_iff cfg w st :
  (canUpload cfg w st = ([], Ok (st, false)) <->
   backupEnabled cfg w = false \/
   (errFileUploader st = None /\
    (GetEnv w "JOBS_BACKUP_STORAGE_PROVIDER" "" = ""
     \/ GetEnv w "JOBS_BACKUP_BUCKET" "" = ""))) /\
  (forall uploader,
     errFileUploader st = Some uploader ->
     canUpload cfg w st = ([], Ok (st, backupEnabled cfg w))).
Proof.
  unfold canUpload, getFileUploader, setupFileUploader.
  destruct (backupEnabled cfg w) eqn:Hbackup; simpl.
  2: { split; [|done]. split; [by left | done]. }
  destruct st as [[uploader|]]; simpl.
  - split; [|done]. split; [done|]. intros [?|[? _]]; done.
  - split; [|done].
    destruct (decide (GetEnv w "JOBS_BACKUP_STORAGE_PROVIDER" "" = "")) as [Hp|Hp].
    { rewrite (bool_decide_eq_false_2 _); [|by intros ?]. simpl.
      split; [intros _; right; auto | done]. }
    destruct (decide (GetEnv w "JOBS_BACKUP_BUCKET" "" = "")) as [Hb|Hb].
    { rewrite (bool_decide_eq_false_2 (GetEnv w "JOBS_BACKUP_BUCKET" "" ≠ ""));
        [|by intros ?].
      rewrite andb_false_r. simpl. split; [intros _; right; auto | done]. }
    rewrite !bool_decide_eq_true_2 by done. simpl.
    destruct (FileManagerFactory_New w _) as [fm|err]; simpl.
    + split; [done|]. intros [?|[_ [?|?]]]; done.
    + split; [done|]. intros [?|[_ [?|?]]]; done.
Qed.

Lemma canUpload_true cfg w st st' tr :
  canUpload cfg w st = (tr, Ok (st', true)) ->
  exists uploader, errFileUploader st' = Some uploader.
Proof.
  unfold canUpload, getFileUploader, setupFileUploader.
  destruct (backupEnabled cfg w); simpl; [|done].
  destruct st as [[uploader|]]; simpl.
  - intros [= _ <-]. by eexists.
  - destruct (bool_decide _ && bool_decide _); simpl; [|done].
    destruct (FileManagerFactory_New w _) as [fm|err]; simpl; [|done].
    intros [= _ <-]. by eexists.
Qed.

(** *** Panics that [storeErrorsToObjectStorage] avoids *)

Lemma avoids_bind {A B} p (c : M event A) (k : A -> M event B) :
  avoids p c -> (forall a, avoids p (k a)) -> avoids p (bind c k).
Proof.
  unfold avoids. destruct c as [tr [a|q]]; simpl; intros Hc Hk.
  - specialize (Hk a). by destruct (k a).
  - congruence.
Qed.

Lemma avoids_must {A} p (r : A + string) :
  (forall e, p <> PanicError e) -> avoids p (must r).
Proof. intros Hp. destruct r; [done|]. unfold avoids. simpl. intros [= <-]. by eapply Hp. Qed.

Lemma avoids_check p (err : option string) :
  (forall e, p <> PanicError e) -> avoids p (check err).
Proof. intros Hp. destruct err; [|done]. unfold avoids. simpl. intros [= <-]. by eapply Hp. Qed.

Lemma avoids_defer {A} p (e : event) (c : M event A) :
  avoids p c -> avoids p (defer e c).
Proof. unfold avoids, defer. by destruct c. Qed.

Lemma avoids_marshalJobs p w jobs : forall contentSlice,
  (forall e, p <> PanicError e) -> avoids p (marshalJobs w jobs contentSlice).
Proof.
  induction jobs as [|job jobs IH]; intros contentSlice Hp; simpl; [done|].
  apply avoids_bind; [by apply avoids_must | intros; by apply IH].
Qed.

Lemma storeErrors_avoids_nil w st jobs uploader :
  errFileUploader st = Some uploader ->
  avoids NilDereference (storeErrorsToObjectStorage w st jobs).
Proof.
  intros Hup. unfold storeErrorsToObjectStorage, index.
  apply avoids_bind; [by apply avoids_must | intros uuid].
  apply avoids_bind; [by apply avoids_must | intros tmpDirPath].
  apply avoids_bind; [by destruct (jobs !! _) | intros firstJob].
  apply avoids_bind; [by destruct (jobs !! _) | intros lastJob].
  repeat (apply avoids_bind; [first [done | by apply avoids_check] | intros _]).
  apply avoids_defer.
  apply avoids_bind; [by apply avoids_marshalJobs | intros contentSlice].
  repeat (apply avoids_bind; [first [done | by apply avoids_check] | intros _]).
  rewrite Hup.
  apply avoids_bind; [done | intros _].
  by destruct (Upload uploader _ _).
Qed.

Lemma readErrJobs_sent_state cfg w st tr st' batch :
  readErrJobs cfg w st = (tr, Ok st') ->
  batch ∈ sent tr ->
  exists uploader, errFileUploader st' = Some uploader.
Proof.
  unfold readErrJobs.
  destruct (readJobs cfg w) as [tr0 [combinedList|p]] eqn:Hread; simpl; [|done].
  destruct (GoInt.len combinedList =? 0); simpl.
  { intros [= <- <-] Hin. rewrite app_nil_r in Hin.
    pose proof (fst_readJobs cfg w) as H0. rewrite Hread in H0. simpl in H0. subst tr0.
    by apply elem_of_nil in Hin. }
  destruct (canUpload cfg w st) as [tr1 [[st1 can]|p]] eqn:Hcan; simpl; [|done].
  rewrite markAndSend_trace. simpl.
  destruct (UpdateJobStatus w _); simpl; [done|].
  intros [= <- <-] Hin.
  destruct can.
  - by eapply canUpload_true.
  - pose proof (fst_readJobs cfg w) as H0. rewrite Hread in H0. simpl in H0. subst tr0.
    pose proof (fst_canUpload cfg w st) as H1. rewrite Hcan in H1. simpl in H1. subst tr1.
    simpl in Hin. by apply elem_of_nil in Hin.
Qed.

(** X11. Whenever one read of the error queue sends a batch to the
    workers, the handle has a file uploader from then on: every later
    [canUpload] keeps the handle as it is, without calling the
    factory. So [storeErrorsToObjectStorage] on that batch never
    calls [Upload] on a nil uploader. *)
Theorem sent_batch_has_uploader cfg w st tr st' batch :
  readErrJobs cfg w st = (tr, Ok st') ->
  batch ∈ sent tr ->
  (exists uploader, errFileUploader st' = Some uploader) /\
  (forall cfg' w', canUpload cfg' w' st' = ([], Ok (st', backupEnabled cfg' w'))) /\
  forall w', snd (storeErrorsToObjectStorage w' st' batch) <> Panicked NilDereference.
Proof.
  intros Hrun Hsent.
  destruct (readErrJobs_sent_state _ _ _ _ _ _ Hrun Hsent) as [uploader Hup].
  split; [by eexists|]. split.
  - intros cfg' w'. unfold canUpload, getFileUploader.
    destruct (backupEnabled cfg' w'); [|done].
    destruct st' as [[uploader'|]]; [reflexivity | done].
  - intros w'. by eapply storeErrors_avoids_nil.
Qed.

Lemma sent_batch_has_uploader_witness :
  let w := sampleWorld [] [sampleJob 2 0 "s"] in
  let st' := {| errFileUploader := Some sampleUploader |} in
  (exists uploader, errFileUploader st' = Some uploader) /\
  (forall cfg' w', canUpload cfg' w' st' = ([], Ok (st', backupEnabled cfg' w'))) /\
  forall w', snd (storeErrorsToObjectStorage w' st' [sampleJob 2 0 "s"])
             <> Panicked NilDereference.
Proof.
  intros w st'.
  apply (sent_batch_has_uploader defaultConfig w {| errFileUploader := None |}
           [EvUpdateJobStatus (snd (markJobs w true Jobsdb.Executing [sampleJob 2 0 "s"] 0 [] []));
            EvSend [sampleJob 2 0 "s"]] st' [sampleJob 2 0 "s"]).
  - reflexivity.
  - vm_compute. apply list_elem_of_here.
Defined.

(** *** Reads that cannot upload, and reads that find nothing *)

(** X12. When the error queue holds jobs and the stash cannot upload
    (the backup is not enabled, or no uploader is configured), one
    read writes a single status list that marks every job read as
    aborted, with the attempt number of its last status plus one, and
    sends nothing to the workers; the read panics exactly when the
    database refuses that list. *)
Theorem no_upload_aborts_all cfg w st combinedList :
  readJobs cfg w = ([], Ok combinedList) ->
  combinedList <> [] ->
  canUpload cfg w st = ([], Ok (st, false)) ->
  exists statusList,
    readErrJobs cfg w st =
      ([EvUpdateJobStatus statusList],
       match UpdateJobStatus w statusList with
       | Some err => Panicked (PanicError err)
       | None => Ok st
       end) /\
    Forall2 (fun job status =>
               JobStatus.JobID status = Job.JobID job /\
               JobStatus.AttemptNum status = GoInt.add (lastAttempt job) 1 /\
               JobStatus.JobState status = Aborted)
            combinedList statusList.
Proof.
  intros Hread Hne Hcan. unfold readErrJobs. rewrite Hread. simpl.
  rewrite len_zero, bool_decide_eq_false_2 by done.
  rewrite Hcan. simpl. rewrite markAndSend_trace. simpl.
  exists (snd (markJobs w false Aborted combinedList 0 combinedList [])). split.
  - by destruct (UpdateJobStatus w _).
  - rewrite markJobs_statuses_acc.
    eapply Forall2_impl; [apply markJobs_statuses|].
    simpl. by intros job status (?&?&?).
Qed.

Lemma no_upload_aborts_all_witness :
  let cfg := {| errorStashEnabled := false; errReadLoopSleep := 30;
                errDBReadBatchSize := 1000; noOfErrStashWorkers := 2;
                maxFailedCountForErrJob := 3; payloadLimit := 0 |} in
  let w := sampleWorld [sampleJob 1 0 "s"] [sampleJob 2 4 "transient"] in
  let st := {| errFileUploader := None |} in
  exists statusList,
    readErrJobs cfg w st =
      ([EvUpdateJobStatus statusList],
       match UpdateJobStatus w statusList with
       | Some err => Panicked (PanicError err)
       | None => Ok st
       end) /\
    Forall2 (fun job status =>
               JobStatus.JobID status = Job.JobID job /\
               JobStatus.AttemptNum status = GoInt.add (lastAttempt job) 1 /\
               JobStatus.JobState status = Aborted)
            [sampleJob 1 0 "s"; sampleJob 2 4 "transient"] statusList.
Proof.
  intros cfg w st.
  apply (no_upload_aborts_all cfg w st [sampleJob 1 0 "s"; sampleJob 2 4 "transient"]).
  - reflexivity.
  - discriminate.
  - reflexivity.
Defined.



(** *** The order of the calls of the read loop *)

Lemma Forall2_elem_of_l {A B} (P : A -> B -> Prop) l k x :
  Forall2 P l k -> x ∈ l -> exists y, y ∈ k /\ P x y.
Proof.
  induction 1 as [|a b l k Hab _ IH]; intros Hin.
  - by apply elem_of_nil in Hin.
  - apply elem_of_cons in Hin as [-> | Hin].
    + exists b. split; [apply list_elem_of_here | done].
    + destruct (IH Hin) as (y & Hy & HP). exists y. split; [by apply list_elem_of_further | done].
Qed.

(** The calls of one read: none, one status list, or one status list
    that the database accepts followed by one batch, each job of which
    the list marks as executing. *)
Lemma readErrJobs_shape cfg w st :
  fst (readErrJobs cfg w st) = [] \/
  exists statusList,
    fst (readErrJobs cfg w st) = [EvUpdateJobStatus statusList] \/
    exists batch,
      fst (readErrJobs cfg w st) = [EvUpdateJobStatus statusList; EvSend batch] /\
      UpdateJobStatus w statusList = None /\
      Forall (fun job =>
                exists status, status ∈ statusList /\
                  JobStatus.JobID status = Job.JobID job /\
                  JobStatus.JobState status = Executing) batch.
Proof.
  unfold readErrJobs.
  pose proof (fst_readJobs cfg w) as H0.
  destruct (readJobs cfg w) as [tr0 [combinedList|p]]; simpl in *; subst tr0; [|by left].
  destruct (GoInt.len combinedList =? 0); simpl; [by left|].
  pose proof (fst_canUpload cfg w st) as H1.
  destruct (canUpload cfg w st) as [tr1 [[st1 can]|p]]; simpl in *; subst tr1; [|by left].
  rewrite markAndSend_trace. simpl.
  right. eexists.
  destruct (UpdateJobStatus w _) eqn:Hupdate; simpl; [by left|].
  destruct can; simpl.
  2: { left. reflexivity. }
  rewrite len_pos.
  destruct (bool_decide _) eqn:Hne; simpl; [|by left].
  right. eexists. split; [reflexivity|]. split; [exact Hupdate|].
  rewrite markJobs_filtered.
  apply Forall_forall. intros job Hjob.
  apply list_elem_of_filter in Hjob as [Happly Hin].
  destruct (Forall2_elem_of_l _ _ _ _ (markJobs_statuses w true Executing combinedList 0) Hin)
    as (status & Hstatus & Hid & _ & Hstate).
  exists status. split; [done|]. split; [done|].
  by rewrite Happly in Hstate.
Qed.

(** X14. In every run of the read loop, a batch is sent to the
    workers only directly after a status list that the database
    accepted in the same read, and that list marks every job of the
    batch as executing: no job reaches a worker before its executing
    status is stored. *)
Theorem sends_follow_status_update cfg ticks : forall st pre batch post,
  fst (readErrJobsLoop cfg ticks st) = pre ++ EvSend batch :: post ->
  exists pre' statusList w,
    pre = pre' ++ [EvUpdateJobStatus statusList] /\
    TimeAfter w ∈ ticks /\
    UpdateJobStatus w statusList = None /\
    Forall (fun job =>
              exists status, status ∈ statusList /\
                JobStatus.JobID status = Job.JobID job /\
                JobStatus.JobState status = Executing) batch.
Proof.
  induction ticks as [|[|w] ticks IH]; intros st pre batch post; simpl.
  - intros Heq. by destruct pre.
  - intros Heq. destruct pre as [|e [|e' pre]]; simplify_eq.
  - rewrite fst_bind.
    assert (Hrest : forall pre batch post,
      match snd (readErrJobs cfg w st) with
      | Ok a => fst (readErrJobsLoop cfg ticks a)
      | Panicked _ => []
      end = pre ++ EvSend batch :: post ->
      exists pre' statusList w0,
        pre = pre' ++ [EvUpdateJobStatus statusList] /\
        TimeAfter w0 ∈ TimeAfter w :: ticks /\
        UpdateJobStatus w0 statusList = None /\
        Forall (fun job =>
                  exists status, status ∈ statusList /\
                    JobStatus.JobID status = Job.JobID job /\
                    JobStatus.JobState status = Executing) batch).
    { intros pre0 batch0 post0 Heq.
      destruct (snd (readErrJobs cfg w st)) as [st1|p]; [|by destruct pre0].
      destruct (IH _ _ _ _ Heq) as (pre' & statusList & w0 & -> & Hin & Hup & Hall).
      exists pre', statusList, w0. repeat split; try done. by apply list_elem_of_further. }
    destruct (readErrJobs_shape cfg w st) as [-> | [statusList [-> | (batch0 & -> & Hup & Hall)]]];
      simpl; intros Heq.
    + by eapply Hrest.
    + destruct pre as [|e pre]; simpl in Heq; [done|].
      injection Heq as <- Heq.
      destruct (Hrest _ _ _ Heq) as (pre' & statusList' & w0 & -> & Hin & Hup & Hall).
      by exists (EvUpdateJobStatus statusList :: pre'), statusList', w0.
    + destruct pre as [|e [|e' pre]]; simpl in Heq; [done| |].
      * injection Heq as <- <- _.
        exists [], statusList, w. repeat split; try done. apply list_elem_of_here.
      * injection Heq as <- <- Heq.
        destruct (Hrest _ _ _ Heq) as (pre' & statusList' & w0 & -> & Hin & Hup' & Hall').
        by exists (EvUpdateJobStatus statusList :: EvSend batch0 :: pre'), statusList', w0.
Qed.

Lemma sends_follow_status_update_witness :
  let w := sampleWorld [] [sampleJob 2 0 "s"] in
  let rows := snd (markJobs w true Jobsdb.Executing [sampleJob 2 0 "s"] 0 [] []) in
  exists pre' statusList w0,
    [EvUpdateJobStatus rows] = pre' ++ [EvUpdateJobStatus statusList] /\
    TimeAfter w0 ∈ [TimeAfter w; CtxDone] /\
    UpdateJobStatus w0 statusList = None /\
    Forall (fun job =>
              exists status, status ∈ statusList /\
                JobStatus.JobID status = Job.JobID job /\
                JobStatus.JobState status = Executing) [sampleJob 2 0 "s"].
Proof.
  intros w rows.
  apply (sends_follow_status_update defaultConfig [TimeAfter w; CtxDone]
           {| errFileUploader := None |} [EvUpdateJobStatus rows]
           [sampleJob 2 0 "s"] [EvClose]).
  reflexivity.
Defined.

Lemma readErrJobs_no_close cfg w st : EvClose ∉ fst (readErrJobs cfg w st).
Proof.
  destruct (readErrJobs_shape cfg w st) as [-> | [statusList [-> | (batch0 & -> & _)]]];
    intros Hin; repeat (apply elem_of_cons in Hin as [Hin|Hin]; [done|]);
    by apply elem_of_nil in Hin.
Qed.

(** X15. The read loop closes [errProcessQ] once, when the context is
    done, as the last thing it does before it returns: nothing is sent
    or written after the close. A run that has not returned (it waits
    for the next tick, or it panicked) has not closed the channel. *)
Theorem close_is_last cfg ticks : forall st,
  match snd (readErrJobsLoop cfg ticks st) with
  | Ok Returned =>
      CtxDone ∈ ticks /\
      exists tr, fst (readErrJobsLoop cfg ticks st) = tr ++ [EvClose] /\ EvClose ∉ tr
  | _ => EvClose ∉ fst (readErrJobsLoop cfg ticks st)
  end.
Proof.
  induction ticks as [|[|w] ticks IH]; intros st; simpl.
  - apply not_elem_of_nil.
  - split; [apply list_elem_of_here|]. exists []. split; [done | apply not_elem_of_nil].
  - pose proof (readErrJobs_no_close cfg w st) as Hno.
    destruct (readErrJobs cfg w st) as [tr0 [st1|p]]; simpl in *; [|done].
    specialize (IH st1).
    destruct (readErrJobsLoop cfg ticks st1) as [tr1 [[|st2]|p]]; simpl in *.
    + destruct IH as (Hdone & tr & -> & Hclose).
      split; [by apply list_elem_of_further|].
      exists (tr0 ++ tr). split; [by rewrite app_assoc|].
      rewrite elem_of_app. tauto.
    + rewrite elem_of_app. tauto.
    + rewrite elem_of_app. tauto.
Qed.

(** *** The calls of [storeErrorsToObjectStorage] and of a worker *)

Lemma fst_marshalJobs w jobs : forall contentSlice,
  fst (marshalJobs w jobs contentSlice) = [].
Proof.
  induction jobs as [|job jobs IH]; intros contentSlice; simpl; [done|].
  rewrite fst_bind, fst_must. simpl. destruct (json_Marshal w job); simpl; [apply IH | done].
Qed.

(** X16. [storeErrorsToObjectStorage] removes the compressed file it
    created, as the last thing it does, whether it returns or panics
    on the way (marshalling, writing, closing, opening, a missing
    uploader); and it removes nothing but a file that it created. *)
Theorem temp_file_removed w st jobs :
  let tr := fst (storeErrorsToObjectStorage w st jobs) in
  (forall path,
     EvCreateGZ path ∈ tr -> CreateGZ w path = None ->
     last tr = Some (EvRemove path)) /\
  (forall path,
     EvRemove path ∈ tr -> EvCreateGZ path ∈ tr /\ CreateGZ w path = None).
Proof.
  unfold storeErrorsToObjectStorage, index.
  destruct (uuid_NewV4 w) as [uuid|?]; simpl;
    [|split; intros path Hin; by apply elem_of_nil in Hin].
  destruct (CreateTMPDIR w) as [tmpDirPath|?]; simpl;
    [|split; intros path Hin; by apply elem_of_nil in Hin].
  destruct (jobs !! 0%nat) as [firstJob|]; simpl;
    [|split; intros path Hin; by apply elem_of_nil in Hin].
  destruct (jobs !! (length jobs - 1)%nat) as [lastJob|]; simpl;
    [|split; intros path Hin; by apply elem_of_nil in Hin].
  set (gz := ((tmpDirPath +:+ "/rudder-processor-errors/") +:+ _) +:+ ".gz").
  destruct (MkdirAll w _); simpl.
  { split; intros path Hin; apply elem_of_cons in Hin as [Hin|Hin]; try done;
      by apply elem_of_nil in Hin. }
  destruct (CreateGZ w gz) eqn:Hcreate; simpl.
  { split; intros path Hin.
    - apply elem_of_cons in Hin as [Hin|Hin]; [done|].
      apply elem_of_cons in Hin as [Hin|Hin]; [|by apply elem_of_nil in Hin].
      injection Hin as ->. congruence.
    - apply elem_of_cons in Hin as [Hin|Hin]; [done|].
      apply elem_of_cons in Hin as [Hin|Hin]; [done|]. by apply elem_of_nil in Hin. }
  assert (Hbody : forall body,
    Forall (fun e => forall path, e <> EvCreateGZ path /\ e <> EvRemove path) body ->
    let tr := EvMkdirAll (filepath_Dir w gz) :: EvCreateGZ gz :: body ++ [EvRemove gz] in
    (forall path,
       EvCreateGZ path ∈ tr -> CreateGZ w path = None -> last tr = Some (EvRemove path)) /\
    (forall path,
       EvRemove path ∈ tr -> EvCreateGZ path ∈ tr /\ CreateGZ w path = None)).
  { intros body Hbody tr.
    assert (Hin : forall e, e ∈ tr ->
      e = EvMkdirAll (filepath_Dir w gz) \/ e = EvCreateGZ gz \/ e ∈ body \/ e = EvRemove gz).
    { intros e. unfold tr. rewrite !elem_of_cons, elem_of_app, list_elem_of_singleton. tauto. }
    rewrite Forall_forall in Hbody.
    split; intros path He; apply Hin in He as [He|[He|[He|He]]]; try done.
    - injection He as ->. intros _. unfold tr.
      by rewrite !app_comm_cons, last_snoc.
    - by destruct (Hbody _ He path).
    - by destruct (Hbody _ He path).
    - injection He as ->. split; [|done].
      unfold tr. apply list_elem_of_further, list_elem_of_here. }
  pose proof (fst_marshalJobs w jobs []) as Hm.
  destruct (marshalJobs w jobs []) as [trm [contentSlice|p]]; simpl in Hm; subst trm; simpl.
  2: { by apply (Hbody []). }
  destruct (gz_Write w gz _); simpl.
  { apply (Hbody [EvWriteGZ gz _]). by repeat constructor. }
  destruct (CloseGZ w gz); simpl.
  { apply (Hbody [EvWriteGZ gz _; EvCloseGZ gz]).
    by repeat constructor. }
  destruct (os_Open w gz); simpl.
  { apply (Hbody [EvWriteGZ gz _; EvCloseGZ gz; EvOpen gz]).
    by repeat constructor. }
  destruct (errFileUploader st) as [uploader|]; simpl.
  - destruct (Upload uploader gz _) as [uploadOutput err]. simpl.
    apply (Hbody [EvWriteGZ gz _; EvCloseGZ gz; EvOpen gz; EvUpload gz _]).
    by repeat constructor.
  - apply (Hbody [EvWriteGZ gz _; EvCloseGZ gz; EvOpen gz]).
    by repeat constructor.
Qed.

(** X17. Once the uuid and the temporary directory are obtained,
    [storeErrorsToObjectStorage] panics with an index out of range
    exactly on an empty job list, and it has then touched neither the
    file system nor the object store. *)
Theorem storeErrors_index_panic_iff_empty w st jobs uuid tmpDirPath :
  uuid_NewV4 w = inl uuid ->
  CreateTMPDIR w = inl tmpDirPath ->
  (snd (storeErrorsToObjectStorage w st jobs) = Panicked IndexOutOfRange <-> jobs = []) /\
  (jobs = [] -> fst (storeErrorsToObjectStorage w st jobs) = []).
Proof.
  intros Huuid Htmp. split; [split|].
  - intros Hpanic. destruct jobs as [|job jobs]; [done|].
    by destruct (storeErrors_noIndexPanic w st (job :: jobs)).
  - intros ->. unfold storeErrorsToObjectStorage. by rewrite Huuid, Htmp.
  - intros ->. unfold storeErrorsToObjectStorage. by rewrite Huuid, Htmp.
Qed.

Lemma storeErrors_index_panic_iff_empty_witness :
  let w := sampleWorld [] [] in
  let st := {| errFileUploader := Some sampleUploader |} in
  let jobs : list JobT := [] in
  (snd (storeErrorsToObjectStorage w st jobs) = Panicked IndexOutOfRange <-> jobs = []) /\
  (jobs = [] -> fst (storeErrorsToObjectStorage w st jobs) = []).
Proof.
  intros w st jobs.
  apply (storeErrors_index_panic_iff_empty w st jobs
           "6ba7b810-9dad-11d1-80b4-00c04fd430c8" "/tmp"); reflexivity.
Defined.

Lemma Forall_fst_bind {A B} (P : event -> Prop) (c : M event A) (k : A -> M event B) :
  Forall P (fst c) -> (forall a, Forall P (fst (k a))) -> Forall P (fst (bind c k)).
Proof.
  intros Hc Hk. rewrite fst_bind. apply Forall_app. split; [done|].
  destruct (snd c); [apply Hk | constructor].
Qed.

Lemma Forall_fst_check (P : event -> Prop) (err : option string) :
  Forall P (fst (check (E := event) err)).
Proof. destruct err; constructor. Qed.

Lemma Forall_fst_must {A} (P : event -> Prop) (r : A + string) :
  Forall P (fst (must (E := event) r)).
Proof. rewrite fst_must. constructor. Qed.

Lemma Forall_fst_defer {A} (P : event -> Prop) (e : event) (c : M event A) :
  P e -> Forall P (fst c) -> Forall P (fst (defer e c)).
Proof.
  intros He Hc. unfold defer. destruct c as [tr r]. simpl in *.
  apply Forall_app. split; [done | by constructor].
Qed.

Lemma storeErrors_file_events w st jobs :
  Forall isFileEvent (fst (storeErrorsToObjectStorage w st jobs)).
Proof.
  unfold storeErrorsToObjectStorage, index.
  apply Forall_fst_bind; [apply Forall_fst_must | intros uuid].
  apply Forall_fst_bind; [apply Forall_fst_must | intros tmpDirPath].
  apply Forall_fst_bind; [destruct (jobs !! _); constructor | intros firstJob].
  apply Forall_fst_bind; [destruct (jobs !! _); constructor | intros lastJob].
  repeat (apply Forall_fst_bind;
          [first [apply Forall_fst_check | by repeat constructor] | intros _]).
  apply Forall_fst_defer; [done|].
  apply Forall_fst_bind; [rewrite fst_marshalJobs; constructor | intros contentSlice].
  repeat (apply Forall_fst_bind;
          [first [apply Forall_fst_check | by repeat constructor] | intros _]).
  destruct (errFileUploader st) as [uploader|]; [|constructor].
  apply Forall_fst_bind; [by repeat constructor | intros _].
  destruct (Upload uploader _ _). constructor.
Qed.

Lemma written_file_events tr : Forall isFileEvent tr -> written tr = [] /\ sent tr = [].
Proof.
  induction 1 as [|e tr He _ [IH1 IH2]]; [done|].
  destruct e; simpl in *; done.
Qed.

(** X18. A worker handles a batch by storing it and then writing one
    status list. While it stores, it neither writes a status nor
    sends anything. If storing panics, the worker panics with the
    same panic and no status is written for the batch, whose jobs
    were marked as executing by the read loop. If storing returns,
    the worker writes one status per job, in order, after the file
    calls; an error of the upload is not a panic but is recorded in
    every row as the error response, a success as the response
    [{"success":"OK"}]; the worker then panics exactly when the
    database refuses the list. *)
Theorem errWorker_writes_after_store cfg w st jobs :
  let store := storeErrorsToObjectStorage w st jobs in
  written (fst store) = [] /\ sent (fst store) = [] /\
  match snd store with
  | Panicked p => errWorker cfg w st jobs = (fst store, Panicked p)
  | Ok output =>
      exists statusList,
        errWorker cfg w st jobs =
          (fst store ++ [EvUpdateJobStatus statusList],
           match UpdateJobStatus w statusList with
           | Some err => Panicked (PanicError err)
           | None => Ok tt
           end) /\
        Forall2 (fun job status =>
                   JobStatus.JobID status = Job.JobID job /\
                   JobStatus.ErrorResponse status =
                     match Error output with
                     | None => successOK
                     | Some msg => marshalError w msg
                     end)
                jobs statusList
  end.
Proof.
  intros store.
  destruct (written_file_events _ (storeErrors_file_events w st jobs)) as [Hw Hs].
  split; [done|]. split; [done|].
  unfold errWorker. fold store.
  destruct store as [tr [output|p]]; simpl; [|done].
  exists (errJobStatuses cfg w output jobs 0 []). split.
  - unfold setErrJobStatus. simpl. by destruct (UpdateJobStatus w _).
  - generalize 0%nat. clear.
    induction jobs as [|job jobs IH]; intros n; simpl; [constructor|].
    destruct (Error output) as [msg|].
    + rewrite errJobStatuses_acc. constructor; [done | apply IH].
    + rewrite errJobStatuses_acc. constructor; [done | apply IH].
Qed.

(** *** The file manager factory behind the uploader *)

Lemma New_object_storage construct invalid provider :
  (provider ∈ Manager.objectStorageDestinations ->
   New construct invalid provider = inl (construct provider)) /\
  (provider ∉ Manager.objectStorageDestinations ->
   New construct invalid provider = inr (invalid +:+ ": " +:+ provider)).
Proof.
  unfold New, Manager.objectStorageDestinations. split.
  - intros Hin.
    repeat (apply elem_of_cons in Hin as [-> | Hin]; [reflexivity|]).
    by apply elem_of_nil in Hin.
  - intros Hnot.
    repeat match goal with
           | |- context [String.eqb provider ?s] =>
               destruct (String.eqb_spec provider s) as [-> | _];
               [exfalso; apply Hnot; apply list_elem_of_In; simpl; tauto|]
           end.
    reflexivity.
Qed.

(** X19. [FileManagerFactoryT.New] returns a manager exactly for the
    providers that the router manager lists as object storage
    destinations, and then the manager of that provider; for any
    other provider it returns the invalid service provider error
    followed by the name of the provider. *)
Theorem New_supports_object_storage_destinations construct invalid provider :
  ((exists fm, New construct invalid provider = inl fm) <->
   provider ∈ Manager.objectStorageDestinations) /\
  New construct invalid provider =
    if decide (provider ∈ Manager.objectStorageDestinations)
    then inl (construct provider)
    else inr (invalid +:+ ": " +:+ provider).
Proof.
  destruct (New_object_storage construct invalid provider) as [Hyes Hno].
  destruct (decide (provider ∈ Manager.objectStorageDestinations)) as [Hin|Hnot].
  - rewrite (Hyes Hin). split; [|done]. split; [done | by eexists].
  - rewrite (Hno Hnot). split; [|done]. split; [by intros [fm ?] | done].
Qed.

(** X20. With the backup enabled, a bucket set and no uploader yet,
    the outcome of a read that finds jobs depends on the provider of
    the environment: a provider that the factory supports gives the
    handle the manager of that provider, and the stash can upload; any
    other non-empty provider makes the read panic with the factory's
    error before a status is written or a job is sent. *)
Theorem provider_decides_upload cfg w st construct invalid :
  (forall provider, FileManagerFactory_New w provider = New construct invalid provider) ->
  backupEnabled cfg w = true ->
  errFileUploader st = None ->
  GetEnv w "JOBS_BACKUP_BUCKET" "" <> "" ->
  let provider := GetEnv w "JOBS_BACKUP_STORAGE_PROVIDER" "" in
  provider <> "" ->
  (provider ∈ Manager.objectStorageDestinations ->
   canUpload cfg w st =
     ([], Ok ({| errFileUploader := Some (construct provider) |}, true))) /\
  (provider ∉ Manager.objectStorageDestinations ->
   forall combinedList,
     readJobs cfg w = ([], Ok combinedList) ->
     combinedList <> [] ->
     readErrJobs cfg w st =
       ([], Panicked (PanicError (invalid +:+ ": " +:+ provider)))).
Proof.
  intros Hfactory Hbackup Hnone Hbucket provider Hprovider.
  assert (Hcan : canUpload cfg w st =
    match New construct invalid provider with
    | inl fm => ([], Ok ({| errFileUploader := Some fm |}, true))
    | inr err => ([], Panicked (PanicError err))
    end).
  { unfold canUpload, getFileUploader, setupFileUploader.
    rewrite Hbackup, Hnone. simpl. fold provider.
    rewrite !bool_decide_eq_true_2 by done. simpl.
    rewrite Hfactory. by destruct (New construct invalid provider). }
  split.
  - intros Hin. rewrite Hcan.
    destruct (New_object_storage construct invalid provider) as [Hyes _].
    by rewrite (Hyes Hin).
  - intros Hnot combinedList Hread Hne.
    unfold readErrJobs. rewrite Hread. simpl.
    rewrite len_zero, bool_decide_eq_false_2 by done.
    rewrite Hcan.
    destruct (New_object_storage construct invalid provider) as [_ Hno].
    by rewrite (Hno Hnot).
Qed.

Lemma provider_decides_upload_witness :
  let w := sampleWorldWithProvider "FTP" [sampleJob 1 0 "s"] [] in
  let st := {| errFileUploader := None |} in
  ("FTP" ∈ Manager.objectStorageDestinations ->
   canUpload defaultConfig w st =
     ([], Ok ({| errFileUploader := Some sampleUploader |}, true))) /\
  ("FTP" ∉ Manager.objectStorageDestinations ->
   forall combinedList,
     readJobs defaultConfig w = ([], Ok combinedList) ->
     combinedList <> [] ->
     readErrJobs defaultConfig w st =
       ([], Panicked (PanicError ("service provider not supported" +:+ ": " +:+ "FTP")))).
Proof.
  intros w st.
  apply (provider_decides_upload defaultConfig w st (fun _ => sampleUploader)
           "service provider not supported").
  - reflexivity.
  - reflexivity.
  - reflexivity.
  - discriminate.
  - discriminate.
Defined.


(** *** The size of a read *)

Lemma readJobs_within_limit cfg w combinedList :
  0 <= errDBReadBatchSize cfg <= GoInt.max_int ->
  (forall params r, GetToRetry w params = inl r ->
     0 <= JobsLimit params -> GoInt.len (Jobs r) <= JobsLimit params) ->
  (forall params r, GetUnprocessed w params = inl r ->
     0 <= JobsLimit params -> GoInt.len (Jobs r) <= JobsLimit params) ->
  snd (readJobs cfg w) = Ok combinedList ->
  GoInt.len combinedList <= errDBReadBatchSize cfg.
Proof.
  intros Hsize HtoRetry Hunprocessed. unfold readJobs.
  destruct (GetToRetry w _) as [toRetry|err] eqn:H1; simpl; [|done].
  pose proof (HtoRetry _ _ H1) as Hlen1. simpl in Hlen1.
  specialize (Hlen1 (proj1 Hsize)).
  assert (0 <= GoInt.len (Jobs toRetry)) by (unfold GoInt.len; lia).
  destruct (LimitsReached toRetry); simpl.
  { by intros [= <-]. }
  destruct (GetUnprocessed w _) as [unprocessed|err] eqn:H2; simpl; [|done].
  pose proof (Hunprocessed _ _ H2) as Hlen2. simpl in Hlen2.
  unfold GoInt.sub in Hlen2.
  rewrite GoIntFacts.wrap_in_range in Hlen2
    by (unfold GoInt.in_range, GoInt.min_int, GoInt.max_int in *; lia).
  intros [= <-]. unfold GoInt.len in *. rewrite length_app. lia.
Qed.

(** X21. If the error queue answers each of the two queries with no
    more jobs than the limit it is asked for, then one read handles at
    most [errDBReadBatchSize] jobs, the jobs to retry and the
    unprocessed jobs together: the second query is asked for what the
    first has left. So does every batch sent to the workers. *)
Theorem read_within_batch_size cfg w st :
  0 <= errDBReadBatchSize cfg <= GoInt.max_int ->
  (forall params r, GetToRetry w params = inl r ->
     0 <= JobsLimit params -> GoInt.len (Jobs r) <= JobsLimit params) ->
  (forall params r, GetUnprocessed w params = inl r ->
     0 <= JobsLimit params -> GoInt.len (Jobs r) <= JobsLimit params) ->
  (forall combinedList,
     snd (readJobs cfg w) = Ok combinedList ->
     GoInt.len combinedList <= errDBReadBatchSize cfg) /\
  (forall statusList,
     statusList ∈ written (fst (readErrJobs cfg w st)) ->
     GoInt.len statusList <= errDBReadBatchSize cfg) /\
  (forall batch,
     batch ∈ sent (fst (readErrJobs cfg w st)) ->
     GoInt.len batch <= errDBReadBatchSize cfg).
Proof.
  intros Hsize HtoRetry Hunprocessed.
  pose proof (readJobs_within_limit cfg w) as Hread.
  split; [intros combinedList; by apply Hread|].
  unfold readErrJobs.
  pose proof (fst_readJobs cfg w) as H0.
  destruct (readJobs cfg w) as [tr0 [combinedList|p]]; simpl in *; subst tr0.
  2: { split; intros x Hin; by apply elem_of_nil in Hin. }
  specialize (Hread combinedList Hsize HtoRetry Hunprocessed eq_refl).
  destruct (GoInt.len combinedList =? 0); simpl.
  { split; intros x Hin; by apply elem_of_nil in Hin. }
  pose proof (fst_canUpload cfg w st) as H1.
  destruct (canUpload cfg w st) as [tr1 [[st1 can]|p]]; simpl in *; subst tr1.
  2: { split; intros x Hin; by apply elem_of_nil in Hin. }
  assert (Hrows : GoInt.len (snd (markJobs w can (if can then Executing else Aborted)
                    combinedList 0 (if can then [] else combinedList) []))
                  = GoInt.len combinedList).
  { rewrite markJobs_statuses_acc. unfold GoInt.len. f_equal. symmetry.
    eapply Forall2_length, markJobs_statuses. }
  assert (Hfilter : forall batch,
            batch ∈ sent (fst (markAndSend w can combinedList)) ->
            GoInt.len batch <= GoInt.len combinedList).
  { intros batch. rewrite markAndSend_trace. simpl.
    destruct (UpdateJobStatus w _); simpl; [intros Hin; by apply elem_of_nil in Hin|].
    destruct can; simpl; [|intros Hin; by apply elem_of_nil in Hin].
    destruct (GoInt.len _ >? 0); simpl; [|intros Hin; by apply elem_of_nil in Hin].
    intros Hin. apply list_elem_of_singleton in Hin as ->.
    rewrite markJobs_filtered. unfold GoInt.len.
    pose proof (length_filter (fun job => ApplyJob w job = false) combinedList). lia. }
  assert (Hfst : fst (bind (markAndSend w can combinedList) (fun _ => ret (E := event) st1))
                 = fst (markAndSend w can combinedList)).
  { rewrite fst_bind. destruct (snd (markAndSend w can combinedList)); simpl; apply app_nil_r. }
  destruct (bind (markAndSend w can combinedList) _) as [tr2 r2]. simpl in *. subst tr2.
  split.
  - intros statusList. rewrite written_markAndSend.
    intros Hin. apply list_elem_of_singleton in Hin as ->. lia.
  - intros batch Hin. specialize (Hfilter batch Hin). lia.
Qed.

(** Five jobs wait in a queue that honours the limits, and at most
    two are read at a time: the first query returns the one job to
    retry, the second is asked for one job and returns one. *)
Example read_within_batch_size_sample :
  let w := sampleWorldLimited [sampleJob 1 0 "s"]
             [sampleJob 2 0 "s"; sampleJob 3 0 "s"; sampleJob 4 0 "s"; sampleJob 5 0 "s"] in
  let tr := fst (readErrJobs smallBatchConfig w {| errFileUploader := None |}) in
  readJobs smallBatchConfig w = ([], Ok [sampleJob 1 0 "s"; sampleJob 2 0 "s"]) /\
  map (map JobStatus.JobID) (written tr) = [[1; 2]] /\
  sent tr = [[sampleJob 1 0 "s"; sampleJob 2 0 "s"]].
Proof. repeat split; reflexivity. Qed.

Lemma read_within_batch_size_witness :
  let w := sampleWorldLimited [sampleJob 1 0 "s"]
             [sampleJob 2 0 "s"; sampleJob 3 0 "s"; sampleJob 4 0 "s"; sampleJob 5 0 "s"] in
  let st := {| errFileUploader := None |} in
  (forall combinedList,
     snd (readJobs smallBatchConfig w) = Ok combinedList ->
     GoInt.len combinedList <= errDBReadBatchSize smallBatchConfig) /\
  (forall statusList,
     statusList ∈ written (fst (readErrJobs smallBatchConfig w st)) ->
     GoInt.len statusList <= errDBReadBatchSize smallBatchConfig) /\
  (forall batch,
     batch ∈ sent (fst (readErrJobs smallBatchConfig w st)) ->
     GoInt.len batch <= errDBReadBatchSize smallBatchConfig).
Proof.
  intros w st.
  apply (read_within_batch_size smallBatchConfig w st).
  - vm_compute. split; discriminate.
  - intros params r [= <-] Hlimit. simpl. unfold GoInt.len.
    rewrite length_take. lia.
  - intros params r [= <-] Hlimit. simpl. unfold GoInt.len.
    rewrite length_take. lia.
Defined.

End StashFacts.

(** ** The router manager *)
Module ManagerFacts.
Import Backendconfig Manager.

Lemma ContainsString_elem_of slice str :
  ContainsString slice str = true <-> str ∈ slice.
Proof.
  induction slice as [|s slice IH]; simpl.
  - split; [done | intros H; by apply elem_of_nil in H].
  - rewrite elem_of_cons. destruct (String.eqb_spec s str) as [->|Hne].
    + split; auto.
    + rewrite IH. split; [auto | intros [?|?]; congruence].
Qed.

(** The test of [monitorDestRouters] is membership in one of the
    three lists. *)
Lemma batch_test name :
  ContainsString objectStorageDestinations name
  || ContainsString warehouseDestinations name
  || ContainsString asyncDestinations name
  = isBatchDestination name.
Proof.
  apply eq_true_iff_eq. unfold isBatchDestination.
  rewrite bool_decide_eq_true, !orb_true_iff, !ContainsString_elem_of.
  tauto.
Qed.

Lemma started_app tr1 tr2 : started (tr1 ++ tr2) = started tr1 ++ started tr2.
Proof. unfold started. apply omap_app. Qed.

Example two_sources_one_router :
  let ga := sampleDestination gaDestinationDefinition true in
  let s3 := sampleDestination s3DestinationDefinition true in
  fst (monitorDestRouters noPanic
         [DataEvent (ConfigData (sampleConfig [ga; s3; ga]));
          DataEvent (ConfigData (sampleConfig [s3; ga]));
          CtxDone])
  = [EvSubscribe;
     EvDeleteExecuting RouterDB;
     EvDeleteExecuting BatchRouterDB;
     EvStartRouter gaDestinationDefinition;
     EvStartBatchRouter "S3";
     EvShutdown [Router gaDestinationDefinition; BatchRouter "S3"]].
Proof. reflexivity. Qed.

(** *** The invariant of the loop *)

Lemma Inv_initial : Inv [] initial [].
Proof.
  unfold Inv, initial; simpl.
  split; [constructor|].
  split.
  { intros name. rewrite !lookup_empty. split.
    - intros H. by apply elem_of_nil in H.
    - intros [[? ?]|[? ?]]; done. }
  split; [intros name; rewrite lookup_empty; by intros [? ?]|].
  split; [intros name; rewrite lookup_empty; by intros [? ?]|].
  split; [intros name H; by apply elem_of_nil in H|].
  split; [intros def H; by apply elem_of_nil in H|].
  done.
Qed.

Lemma Inv_seen_again tr s seen name :
  Inv tr s seen -> name ∈ started tr -> Inv (tr ++ []) s (seen ++ [name]).
Proof.
  intros (Hnd & Hdom & Hrt & Hbrt & Hevb & Hevr & Hseen) Hin.
  rewrite app_nil_r. unfold Inv. split_and!; try done.
  intros other. rewrite elem_of_app, list_elem_of_singleton, <- Hseen.
  split; [tauto | intros [?| ->]; done].
Qed.

Lemma forDestination_inv destination enabledDestinations s tr seen :
  Inv tr s seen ->
  exists tr' enabledDestinations' s',
    forDestination destination (enabledDestinations, s)
    = (tr', Ok (enabledDestinations', s')) /\
    Inv (tr ++ tr') s' (seen ++ [definitionName destination]).
Proof.
  intros HInv. pose proof HInv as (Hnd & Hdom & Hrt & Hbrt & Hevb & Hevr & Hseen).
  unfold forDestination. fold (definitionName destination).
  set (name := definitionName destination) in *.
  rewrite batch_test.
  assert (forall other, other ∈ seen ++ [name] <-> other ∈ started tr \/ other = name)
    as Hseen'.
  { intros other. rewrite elem_of_app, list_elem_of_singleton, Hseen. tauto. }
  destruct (isBatchDestination name) eqn:Hbatch.
  - destruct (dstToBatchRouter s !! name) as [brt|] eqn:Hlookup; simpl.
    + eexists _, _, _. split; [reflexivity|].
      apply Inv_seen_again; [done|]. apply Hdom. right. by eexists.
    + eexists _, _, _. split; [reflexivity|].
      assert (name ∉ started tr) as Hfresh.
      { intros [[? Hin]|[? Hin]]%Hdom.
        - assert (isBatchDestination name = false) by (apply Hrt; by eexists).
          congruence.
        - congruence. }
      unfold Inv; simpl. rewrite started_app. simpl.
      split.
      { apply NoDup_app. split; [done|]. split; [|apply NoDup_singleton].
        intros other Hother ->%list_elem_of_singleton. done. }
      split.
      { intros other. rewrite elem_of_app, list_elem_of_singleton, Hdom.
        destruct (decide (other = name)) as [->|Hne].
        - rewrite lookup_insert_eq. split; [|auto]. intros _. right. by eexists.
        - rewrite lookup_insert_ne by done. tauto. }
      split; [done|].
      split.
      { intros other. destruct (decide (other = name)) as [->|Hne]; [done|].
        rewrite lookup_insert_ne by done. apply Hbrt. }
      split.
      { intros other [H|H]%elem_of_app; [by apply Hevb|].
        apply list_elem_of_singleton in H. by injection H as ->. }
      split.
      { intros def [H|H]%elem_of_app; [by apply Hevr|].
        by apply list_elem_of_singleton in H. }
      intros other. rewrite Hseen', elem_of_app, list_elem_of_singleton. tauto.
  - destruct (dstToRouter s !! name) as [rt|] eqn:Hlookup; simpl.
    + eexists _, _, _. split; [reflexivity|].
      apply Inv_seen_again; [done|]. apply Hdom. left. by eexists.
    + eexists _, _, _. split; [reflexivity|].
      assert (name ∉ started tr) as Hfresh.
      { intros [[? Hin]|[? Hin]]%Hdom.
        - congruence.
        - assert (isBatchDestination name = true) by (apply Hbrt; by eexists).
          congruence. }
      unfold Inv; simpl. rewrite started_app. simpl.
      fold (definitionName destination). fold name.
      split.
      { apply NoDup_app. split; [done|]. split; [|apply NoDup_singleton].
        intros other Hother ->%list_elem_of_singleton. done. }
      split.
      { intros other. rewrite elem_of_app, list_elem_of_singleton, Hdom.
        destruct (decide (other = name)) as [->|Hne].
        - rewrite lookup_insert_eq. split; [|auto]. intros _. left. by eexists.
        - rewrite lookup_insert_ne by done. tauto. }
      split.
      { intros other. destruct (decide (other = name)) as [->|Hne]; [done|].
        rewrite lookup_insert_ne by done. apply Hrt. }
      split; [done|].
      split.
      { intros other [H|H]%elem_of_app; [by apply Hevb|].
        by apply list_elem_of_singleton in H. }
      split.
      { intros def [H|H]%elem_of_app; [by apply Hevr|].
        apply list_elem_of_singleton in H. by injection H as ->. }
      intros other. rewrite Hseen', elem_of_app, list_elem_of_singleton. tauto.
Qed.

Lemma forDestinations_inv destinations : forall enabledDestinations s tr seen,
  Inv tr s seen ->
  exists tr' enabledDestinations' s',
    forDestinations destinations (enabledDestinations, s)
    = (tr', Ok (enabledDestinations', s')) /\
    Inv (tr ++ tr') s' (seen ++ map definitionName destinations).
Proof.
  induction destinations as [|destination destinations IH];
    intros enabledDestinations s tr seen HInv; simpl.
  - eexists _, _, _. split; [reflexivity|]. by rewrite !app_nil_r.
  - destruct (forDestination_inv destination enabledDestinations s tr seen HInv)
      as (tr1 & en1 & s1 & Hstep & HInv1).
    destruct (IH en1 s1 _ _ HInv1) as (tr2 & en2 & s2 & Hrest & HInv2).
    rewrite (bind_ok _ _ _ _ Hstep), Hrest. simpl.
    eexists _, _, _. split; [reflexivity|].
    rewrite <- !app_assoc in HInv2. exact HInv2.
Qed.

Lemma forSources_inv sources : forall enabledDestinations s tr seen,
  Inv tr s seen ->
  exists tr' enabledDestinations' s',
    forSources sources (enabledDestinations, s)
    = (tr', Ok (enabledDestinations', s')) /\
    Inv (tr ++ tr') s'
      (seen ++ map definitionName (concat (map SourceT.Destinations sources))).
Proof.
  induction sources as [|source sources IH];
    intros enabledDestinations s tr seen HInv; simpl.
  - eexists _, _, _. split; [reflexivity|]. by rewrite !app_nil_r.
  - destruct (forDestinations_inv (SourceT.Destinations source)
                enabledDestinations s tr seen HInv)
      as (tr1 & en1 & s1 & Hstep & HInv1).
    destruct (IH en1 s1 _ _ HInv1) as (tr2 & en2 & s2 & Hrest & HInv2).
    rewrite (bind_ok _ _ _ _ Hstep), Hrest. simpl.
    eexists _, _, _. split; [reflexivity|].
    rewrite map_app, (app_assoc seen). rewrite <- (app_assoc tr) in HInv2.
    exact HInv2.
Qed.

Lemma Inv_TraceInv tr s seen : Inv tr s seen -> TraceInv tr seen.
Proof. intros (? & ? & ? & ? & ? & ? & ?). by unfold TraceInv. Qed.

Lemma monitorLoop_inv events : forall s tr seen,
  Inv tr s seen ->
  TraceInv (tr ++ fst (monitorLoop events s)) (seen ++ namesRead events).
Proof.
  induction events as [|[| |[config|]] events IH]; intros s tr seen HInv; simpl;
    try (rewrite !app_nil_r; by eapply Inv_TraceInv).
  destruct (forSources_inv (Sources config) ∅ s tr seen HInv)
    as (tr1 & en1 & s1 & Hstep & HInv1).
  rewrite Hstep. simpl.
  specialize (IH s1 _ _ HInv1).
  destruct (monitorLoop events s1) as [tr2 r] eqn:Hloop. simpl in *.
  rewrite app_nil_r.
  unfold namesRead in *. simpl. unfold destinationsOf at 1.
  rewrite (app_assoc seen). rewrite <- (app_assoc tr) in IH. exact IH.
Qed.

(** The trace of [monitorDestRouters] around the trace of its loop. *)
Lemma monitorDestRouters_trace DeleteExecuting events :
  fst (monitorDestRouters DeleteExecuting events) =
  [EvSubscribe; EvDeleteExecuting RouterDB] ++
  match DeleteExecuting RouterDB with
  | Some _ => []
  | None =>
      [EvDeleteExecuting BatchRouterDB] ++
      match DeleteExecuting BatchRouterDB with
      | Some _ => []
      | None =>
          fst (monitorLoop events initial) ++
          match snd (monitorLoop events initial) with
          | Ok (Broken s) => [EvShutdown (cleanup s)]
          | _ => []
          end
      end
  end.
Proof.
  unfold monitorDestRouters. simpl.
  destruct (DeleteExecuting RouterDB); simpl; [done|].
  destruct (DeleteExecuting BatchRouterDB); simpl; [done|].
  destruct (monitorLoop events initial) as [tr [[s|s]|p]]; simpl;
    by rewrite ?app_nil_r.
Qed.

Lemma started_monitorDestRouters DeleteExecuting events :
  started (fst (monitorDestRouters DeleteExecuting events)) =
  match DeleteExecuting RouterDB, DeleteExecuting BatchRouterDB with
  | None, None => started (fst (monitorLoop events initial))
  | _, _ => []
  end.
Proof.
  rewrite monitorDestRouters_trace.
  destruct (DeleteExecuting RouterDB); simpl; [done|].
  destruct (DeleteExecuting BatchRouterDB); simpl; [done|].
  change (started (fst (monitorLoop events initial) ++ ?t))
    with (started (fst (monitorLoop events initial) ++ t)).
  rewrite started_app.
  destruct (snd (monitorLoop events initial)) as [[s|s]|p]; simpl;
    by rewrite app_nil_r.
Qed.

Lemma starts_monitorDestRouters DeleteExecuting events e :
  isStart e ->
  e ∈ fst (monitorDestRouters DeleteExecuting events) ->
  e ∈ fst (monitorLoop events initial).
Proof.
  intros Hstart. rewrite monitorDestRouters_trace.
  rewrite !elem_of_app, !elem_of_cons.
  intros [[->|[->|H]]|H]; try done; try (by apply elem_of_nil in H).
  destruct (DeleteExecuting RouterDB); [by apply elem_of_nil in H|].
  rewrite elem_of_app, list_elem_of_singleton in H.
  destruct H as [->|H]; [done|].
  destruct (DeleteExecuting BatchRouterDB); [by apply elem_of_nil in H|].
  rewrite elem_of_app in H. destruct H as [H|H]; [done|].
  destruct (snd (monitorLoop events initial)) as [[s|s]|p];
    try (by apply elem_of_nil in H).
  apply list_elem_of_singleton in H. by subst.
Qed.

Lemma monitorLoop_TraceInv events :
  TraceInv (fst (monitorLoop events initial)) (namesRead events).
Proof. apply (monitorLoop_inv events initial [] []), Inv_initial. Qed.

(** *** The properties *)

Lemma elem_of_namesRead events name :
  name ∈ namesRead events <->
  exists config destination,
    config ∈ configsRead events /\
    destination ∈ destinationsOf config /\
    definitionName destination = name.
Proof.
  unfold namesRead. rewrite list_elem_of_In, in_concat. split.
  - intros (names & Hnames & Hname).
    apply in_map_iff in Hnames as (config & <- & Hconfig).
    apply in_map_iff in Hname as (destination & <- & Hdest).
    exists config, destination. by rewrite !list_elem_of_In.
  - intros (config & destination & Hconfig & Hdest & <-).
    rewrite list_elem_of_In in Hconfig. rewrite list_elem_of_In in Hdest.
    exists (map definitionName (destinationsOf config)). split.
    + apply in_map_iff. by exists config.
    + apply in_map_iff. by exists destination.
Qed.

(** C3, as stated, fails: one configuration event whose only
    destination, of definition GA, is not enabled makes the manager
    start the GA router. *)
Lemma disabled_destination_starts_router :
  let destination := sampleDestination gaDestinationDefinition false in
  let events := [DataEvent (ConfigData (sampleConfig [destination]))] in
  (forall config d,
     config ∈ configsRead events -> d ∈ destinationsOf config ->
     DestinationT.Enabled d = false) /\
  fst (monitorDestRouters noPanic events)
  = [EvSubscribe;
     EvDeleteExecuting RouterDB;
     EvDeleteExecuting BatchRouterDB;
     EvStartRouter gaDestinationDefinition].
Proof.
  split; [|reflexivity].
  intros config d Hconfig Hd. simpl in Hconfig.
  apply list_elem_of_singleton in Hconfig. subst config.
  unfold destinationsOf in Hd. simpl in Hd.
  apply list_elem_of_singleton in Hd. by subst d.
Qed.

(** C3, amended. For every sequence of backend-config events, once
    crash recovery has returned, a router or batch router is started
    for a definition name if and only if a destination with that
    definition name occurs, under some source, in a configuration the
    manager reads; the [Enabled] flags of the destination and of its
    source are not consulted. *)
Theorem routers_for_all_destinations DeleteExecuting events name :
  DeleteExecuting RouterDB = None ->
  DeleteExecuting BatchRouterDB = None ->
  name ∈ started (fst (monitorDestRouters DeleteExecuting events)) <->
  exists config destination,
    config ∈ configsRead events /\
    destination ∈ destinationsOf config /\
    definitionName destination = name.
Proof.
  intros Hrt Hbrt.
  rewrite started_monitorDestRouters, Hrt, Hbrt.
  destruct (monitorLoop_TraceInv events) as (_ & _ & _ & Hseen).
  by rewrite Hseen, elem_of_namesRead.
Qed.

Lemma routers_for_all_destinations_witness :
  let destination := sampleDestination gaDestinationDefinition false in
  let events := [DataEvent (ConfigData (sampleConfig [destination]))] in
  "GA" ∈ started (fst (monitorDestRouters noPanic events)) <->
  exists config destination,
    config ∈ configsRead events /\
    destination ∈ destinationsOf config /\
    definitionName destination = "GA".
Proof.
  intros destination events.
  apply (routers_for_all_destinations noPanic events "GA"); reflexivity.
Defined.

(** C4. For every sequence of backend-config events, the manager
    starts at most one instance per destination definition name,
    however often and under however many sources the name occurs; a
    batch router is started only for names in the object-storage,
    warehouse or async lists, and a standard router only for names in
    none of them. *)
Theorem one_instance_per_definition DeleteExecuting events :
  let tr := fst (monitorDestRouters DeleteExecuting events) in
  NoDup (started tr) /\
  (forall name,
     EvStartBatchRouter name ∈ tr ->
     name ∈ objectStorageDestinations \/ name ∈ warehouseDestinations
     \/ name ∈ asyncDestinations) /\
  (forall def,
     EvStartRouter def ∈ tr ->
     ~ (DestinationDefinitionT.Name def ∈ objectStorageDestinations
        \/ DestinationDefinitionT.Name def ∈ warehouseDestinations
        \/ DestinationDefinitionT.Name def ∈ asyncDestinations)).
Proof.
  intros tr. subst tr.
  destruct (monitorLoop_TraceInv events) as (Hnd & Hevb & Hevr & _).
  split.
  { rewrite started_monitorDestRouters.
    destruct (DeleteExecuting RouterDB); [constructor|].
    destruct (DeleteExecuting BatchRouterDB); [constructor|]. done. }
  split.
  - intros name Hin. apply starts_monitorDestRouters in Hin; [|done].
    apply Hevb in Hin. unfold isBatchDestination in Hin.
    by apply bool_decide_eq_true in Hin.
  - intros def Hin. apply starts_monitorDestRouters in Hin; [|done].
    apply Hevr in Hin. unfold isBatchDestination in Hin.
    by apply bool_decide_eq_false in Hin.
Qed.

(** C5. In every run of [monitorDestRouters], any event that creates
    and starts a router or a batch router comes after the call of
    [DeleteExecuting] on the router job store and after the call on
    the batch-router job store, and both calls have returned. *)
Theorem crash_recovery_precedes_start DeleteExecuting events i e :
  fst (monitorDestRouters DeleteExecuting events) !! i = Some e ->
  isStart e ->
  DeleteExecuting RouterDB = None /\
  DeleteExecuting BatchRouterDB = None /\
  exists j k,
    (j < k < i)%nat /\
    fst (monitorDestRouters DeleteExecuting events) !! j
      = Some (EvDeleteExecuting RouterDB) /\
    fst (monitorDestRouters DeleteExecuting events) !! k
      = Some (EvDeleteExecuting BatchRouterDB).
Proof.
  rewrite monitorDestRouters_trace. intros Hi Hstart.
  destruct i as [|[|i]]; simpl in Hi; [by injection Hi as <-..|].
  destruct (DeleteExecuting RouterDB); [done|].
  destruct i as [|i]; simpl in Hi; [by injection Hi as <-|].
  destruct (DeleteExecuting BatchRouterDB); [done|].
  split; [done|]. split; [done|].
  exists 1%nat, 2%nat. split; [lia|]. done.
Qed.

Lemma crash_recovery_precedes_start_witness :
  let events :=
    [DataEvent (ConfigData (sampleConfig [sampleDestination s3DestinationDefinition true]))] in
  noPanic RouterDB = None /\
  noPanic BatchRouterDB = None /\
  exists j k,
    (j < k < 3)%nat /\
    fst (monitorDestRouters noPanic events) !! j = Some (EvDeleteExecuting RouterDB) /\
    fst (monitorDestRouters noPanic events) !! k = Some (EvDeleteExecuting BatchRouterDB).
Proof.
  intros events.
  apply (crash_recovery_precedes_start noPanic events 3 (EvStartBatchRouter "S3")).
  - reflexivity.
  - exact I.
Defined.

(** *** Shutdown *)

Lemma forDestination_cleanup destination enabledDestinations s :
  exists tr enabledDestinations' s',
    forDestination destination (enabledDestinations, s)
    = (tr, Ok (enabledDestinations', s')) /\
    cleanup s' = cleanup s ++ omap startHandle tr /\
    Forall (fun e => ~ isShutdown e) tr.
Proof.
  unfold forDestination.
  destruct (_ || _).
  - destruct (dstToBatchRouter s !! _); simpl.
    + eexists _, _, _. split; [reflexivity|]. by rewrite app_nil_r.
    + eexists _, _, _. split; [reflexivity|]. split; [done|].
      repeat constructor. tauto.
  - destruct (dstToRouter s !! _); simpl.
    + eexists _, _, _. split; [reflexivity|]. by rewrite app_nil_r.
    + eexists _, _, _. split; [reflexivity|]. split; [done|].
      repeat constructor. tauto.
Qed.

Lemma forDestinations_cleanup destinations : forall enabledDestinations s,
  exists tr enabledDestinations' s',
    forDestinations destinations (enabledDestinations, s)
    = (tr, Ok (enabledDestinations', s')) /\
    cleanup s' = cleanup s ++ omap startHandle tr /\
    Forall (fun e => ~ isShutdown e) tr.
Proof.
  induction destinations as [|destination destinations IH]; intros en s; simpl.
  - eexists _, _, _. split; [reflexivity|]. by rewrite app_nil_r.
  - destruct (forDestination_cleanup destination en s)
      as (tr1 & en1 & s1 & Hstep & Hc1 & Hn1).
    destruct (IH en1 s1) as (tr2 & en2 & s2 & Hrest & Hc2 & Hn2).
    rewrite (bind_ok _ _ _ _ Hstep), Hrest. simpl.
    eexists _, _, _. split; [reflexivity|]. split.
    + by rewrite Hc2, Hc1, omap_app, app_assoc.
    + by apply Forall_app.
Qed.

Lemma forSources_cleanup sources : forall enabledDestinations s,
  exists tr enabledDestinations' s',
    forSources sources (enabledDestinations, s)
    = (tr, Ok (enabledDestinations', s')) /\
    cleanup s' = cleanup s ++ omap startHandle tr /\
    Forall (fun e => ~ isShutdown e) tr.
Proof.
  induction sources as [|source sources IH]; intros en s; simpl.
  - eexists _, _, _. split; [reflexivity|]. by rewrite app_nil_r.
  - destruct (forDestinations_cleanup (SourceT.Destinations source) en s)
      as (tr1 & en1 & s1 & Hstep & Hc1 & Hn1).
    destruct (IH en1 s1) as (tr2 & en2 & s2 & Hrest & Hc2 & Hn2).
    rewrite (bind_ok _ _ _ _ Hstep), Hrest. simpl.
    eexists _, _, _. split; [reflexivity|]. split.
    + by rewrite Hc2, Hc1, omap_app, app_assoc.
    + by apply Forall_app.
Qed.

Lemma monitorLoop_cleanup events : forall s,
  Forall (fun e => ~ isShutdown e) (fst (monitorLoop events s)) /\
  forall s',
    (snd (monitorLoop events s) = Ok (Broken s') \/
     snd (monitorLoop events s) = Ok (Selecting s')) ->
    cleanup s' = cleanup s ++ omap startHandle (fst (monitorLoop events s)).
Proof.
  induction events as [|[| |[config|]] events IH]; intros s; simpl;
    try (split; [constructor|]; intros s' [[= <-]|[= <-]]; by rewrite app_nil_r);
    try (split; [constructor|]; by intros s' [?|?]).
  destruct (forSources_cleanup (Sources config) ∅ s)
    as (tr1 & en1 & s1 & Hstep & Hc1 & Hn1).
  rewrite Hstep. simpl.
  destruct (IH s1) as [Hn2 Hc2].
  destruct (monitorLoop events s1) as [tr2 r] eqn:Hloop. simpl in *.
  rewrite app_nil_r. split; [by apply Forall_app|].
  intros s' Hs'. rewrite (Hc2 s' Hs'), Hc1, omap_app. by rewrite app_assoc.
Qed.

(** Cancellation after two routers were started. *)
Example shutdown_sample :
  let ga := sampleDestination gaDestinationDefinition true in
  let s3 := sampleDestination s3DestinationDefinition false in
  fst (monitorDestRouters noPanic
         [DataEvent (ConfigData (sampleConfig [s3; ga])); ChannelClosed;
          DataEvent (ConfigData (sampleConfig [ga]))])
  = [EvSubscribe;
     EvDeleteExecuting RouterDB;
     EvDeleteExecuting BatchRouterDB;
     EvStartBatchRouter "S3";
     EvStartRouter gaDestinationDefinition;
     EvShutdown [BatchRouter "S3"; Router gaDestinationDefinition]].
Proof. reflexivity. Qed.

(** X8. When the monitor loop is left, through the cancelled context
    or the closed channel, the [Shutdown] functions that
    [monitorDestRouters] then runs are those of the instances it has
    started: each of them once, none else, listed in the order of
    their start; and this is the last thing it does. When it panics
    or still waits for an event, it has run no [Shutdown]. *)
Theorem shutdown_covers_started DeleteExecuting events :
  let tr := fst (monitorDestRouters DeleteExecuting events) in
  let r := snd (monitorDestRouters DeleteExecuting events) in
  (forall s, r = Ok (Broken s) ->
     exists tr',
       tr = tr' ++ [EvShutdown (cleanup s)] /\
       cleanup s = omap startHandle tr' /\
       Forall (fun e => ~ isShutdown e) tr') /\
  ((forall s, r <> Ok (Broken s)) -> Forall (fun e => ~ isShutdown e) tr).
Proof.
  intros tr r. subst tr r. unfold monitorDestRouters. simpl.
  destruct (DeleteExecuting RouterDB) as [err|]; simpl.
  { split; [done|]. intros _. repeat constructor; tauto. }
  destruct (DeleteExecuting BatchRouterDB) as [err|]; simpl.
  { split; [done|]. intros _. repeat constructor; tauto. }
  destruct (monitorLoop_cleanup events initial) as [Hn Hc].
  destruct (monitorLoop events initial) as [tr [[s|s]|p]]; simpl in *.
  - split.
    + intros s' [= <-].
      exists ([EvSubscribe; EvDeleteExecuting RouterDB; EvDeleteExecuting BatchRouterDB]
              ++ tr).
      split; [done|]. split.
      * rewrite omap_app. simpl. apply (Hc s). by left.
      * apply Forall_app. split; [repeat constructor; tauto | done].
    + intros Hnot. exfalso. by apply (Hnot s).
  - split; [done|]. intros _. rewrite app_nil_r.
    repeat (constructor; [tauto|]). done.
  - split; [done|]. intros _.
    repeat (constructor; [tauto|]). done.
Qed.

(** *** A configuration that brings nothing new *)

Lemma monitorLoop_app events more : forall s,
  fst (monitorLoop (events ++ more) s) =
  fst (monitorLoop events s) ++
  match snd (monitorLoop events s) with
  | Ok (Selecting s') => fst (monitorLoop more s')
  | _ => []
  end.
Proof.
  induction events as [|[| |d] events IH]; intros s; simpl; try done.
  destruct (onConfig d s) as [tr1 [s1|p]]; simpl; [|by rewrite app_nil_r].
  specialize (IH s1).
  destruct (monitorLoop (events ++ more) s1) as [tr2 r2].
  destruct (monitorLoop events s1) as [tr3 r3]. simpl in *.
  by rewrite IH, app_assoc.
Qed.

Lemma configsRead_app events more config :
  config ∈ configsRead (events ++ more) ->
  config ∈ configsRead events \/ config ∈ configsRead more.
Proof.
  induction events as [|[| |[c|]] events IH]; simpl; try (intros H; by left); [tauto|].
  rewrite !elem_of_cons. intros [->|H]; [by left; left|].
  destruct (IH H); [left; by right | by right].
Qed.

(** X9. A configuration event in which every destination has a
    definition name that the manager has already read in an earlier
    event starts nothing: the instances started are the same with and
    without that event. *)
Theorem known_configuration_starts_nothing DeleteExecuting events config :
  (forall destination,
     destination ∈ destinationsOf config ->
     definitionName destination ∈ namesRead events) ->
  started (fst (monitorDestRouters DeleteExecuting
                  (events ++ [DataEvent (ConfigData config)])))
  = started (fst (monitorDestRouters DeleteExecuting events)).
Proof.
  intros Hknown. rewrite !started_monitorDestRouters.
  destruct (DeleteExecuting RouterDB); [done|].
  destruct (DeleteExecuting BatchRouterDB); [done|].
  destruct (monitorLoop_TraceInv (events ++ [DataEvent (ConfigData config)]))
    as (Hnd & _ & _ & Hseen).
  destruct (monitorLoop_TraceInv events) as (_ & _ & _ & Hseen0).
  rewrite monitorLoop_app, started_app in Hnd, Hseen |- *.
  set (base := started (fst (monitorLoop events initial))) in *.
  match goal with |- _ ++ ?e = _ => set (extra := e) in * end.
  assert (extra = []) as ->; [|by rewrite app_nil_r].
  destruct extra as [|name extra'] eqn:Hextra; [done|]. exfalso.
  apply NoDup_app in Hnd as (_ & Hdisj & _).
  apply (Hdisj name); [|apply list_elem_of_here].
  apply Hseen0.
  assert (name ∈ base ++ name :: extra') as Hin.
  { apply elem_of_app. right. apply list_elem_of_here. }
  apply Hseen, elem_of_namesRead in Hin as (c & d & Hc & Hd & <-).
  apply configsRead_app in Hc as [Hc|Hc].
  - apply elem_of_namesRead. by exists c, d.
  - simpl in Hc. apply list_elem_of_singleton in Hc. subst c. by apply Hknown.
Qed.

Lemma known_configuration_starts_nothing_witness :
  let ga := sampleDestination gaDestinationDefinition true in
  let s3 := sampleDestination s3DestinationDefinition true in
  let events := [DataEvent (ConfigData (sampleConfig [ga; s3]))] in
  started (fst (monitorDestRouters noPanic
                  (events ++ [DataEvent (ConfigData (sampleConfig [s3; ga; s3]))])))
  = started (fst (monitorDestRouters noPanic events)).
Proof.
  intros ga s3 events.
  apply (known_configuration_starts_nothing noPanic events (sampleConfig [s3; ga; s3])).
  intros destination Hin. unfold destinationsOf in Hin. simpl in Hin.
  repeat (apply elem_of_cons in Hin as [->|Hin];
          [apply list_elem_of_In; vm_compute; auto|]).
  by apply elem_of_nil in Hin.
Defined.

End ManagerFacts.

(** ** The per-customer job queues *)
Module DatamanagerFacts.
Import Datamanager.

Lemma selectQueue_known queue :
  knownQueue queue -> exists field, selectQueue queue = Some field.
Proof.
  intros [-> | [-> | [-> | ->]]]; by eexists.
Qed.

Lemma selectQueue_unknown queue :
  ~ knownQueue queue -> selectQueue queue = None.
Proof.
  intros Hunknown. unfold selectQueue, knownQueue in *.
  repeat match goal with
         | |- context [String.eqb ?a ?b] =>
             destruct (String.eqb_spec a b); [tauto|]
         end.
  done.
Qed.

Lemma jobsOf_Permutation entries1 entries2 :
  entries1 ≡ₚ entries2 -> jobsOf entries1 ≡ₚ jobsOf entries2.
Proof.
  unfold jobsOf. induction 1 as [|[c l] ? ? ? IH|[c1 l1] [c2 l2] ?|? ? ? ? IH1 ? IH2];
    simpl.
  - done.
  - by rewrite IH.
  - rewrite !app_assoc. by rewrite (Permutation_app_comm l2 l1).
  - by rewrite IH1.
Qed.

#[local] Instance jobsOf_proper : Proper ((≡ₚ) ==> (≡ₚ)) jobsOf.
Proof. intros ? ?. apply jobsOf_Permutation. Qed.

(** Grouping keeps every job, and adds it to the list of its
    customer. *)
Lemma groupByCustomer_jobs jobList : forall customerJobListMap,
  jobsOf (map_to_list (groupByCustomer jobList customerJobListMap))
  ≡ₚ jobsOf (map_to_list customerJobListMap) ++ jobList.
Proof.
  induction jobList as [|job jobList IH]; intros m; simpl.
  - by rewrite app_nil_r.
  - rewrite IH. clear IH.
    transitivity ((jobsOf (map_to_list m) ++ [job]) ++ jobList);
      [apply Permutation_app_tail | by rewrite <- app_assoc].
    destruct (m !! Job.Customer job) as [old|] eqn:Hlookup.
    + rewrite Hlookup. simpl.
      rewrite <- (insert_delete_eq m).
      rewrite map_to_list_insert by apply lookup_delete_eq.
      rewrite <- (map_to_list_delete m _ _ Hlookup).
      unfold jobsOf. simpl.
      rewrite <- !app_assoc. apply Permutation_app_head.
      rewrite Permutation_app_comm. done.
    + rewrite lookup_insert_eq. simpl.
      rewrite insert_insert_eq.
      rewrite map_to_list_insert by done.
      unfold jobsOf. simpl. apply Permutation_cons_append.
Qed.

Lemma groupByCustomer_customers jobList : forall customerJobListMap,
  (forall customer list job,
     customerJobListMap !! customer = Some list -> job ∈ list ->
     Job.Customer job = customer) ->
  forall customer list job,
    groupByCustomer jobList customerJobListMap !! customer = Some list ->
    job ∈ list -> Job.Customer job = customer.
Proof.
  induction jobList as [|job0 jobList IH]; intros m Hm; simpl; [done|].
  apply IH. clear IH.
  intros customer list job.
  destruct (decide (customer = Job.Customer job0)) as [->|Hne].
  - rewrite lookup_insert_eq. intros [= <-] Hin.
    apply elem_of_app in Hin as [Hin|Hin].
    + destruct (m !! Job.Customer job0) as [old|] eqn:Hlookup.
      * rewrite Hlookup in Hin. simpl in Hin. by eapply Hm.
      * rewrite lookup_insert_eq in Hin. simpl in Hin. by apply elem_of_nil in Hin.
    + apply list_elem_of_singleton in Hin. by subst.
  - rewrite lookup_insert_ne by done.
    destruct (m !! Job.Customer job0) as [old|] eqn:Hlookup.
    + apply Hm.
    + rewrite lookup_insert_ne by done. apply Hm.
Qed.

Lemma groupByCustomer_keys jobList : forall customerJobListMap customer,
  is_Some (groupByCustomer jobList customerJobListMap !! customer) ->
  is_Some (customerJobListMap !! customer)
  \/ exists job, job ∈ jobList /\ Job.Customer job = customer.
Proof.
  induction jobList as [|job0 jobList IH]; intros m customer; simpl; [auto|].
  intros [H|(job & Hin & Hc)]%IH.
  - destruct (decide (customer = Job.Customer job0)) as [->|Hne].
    + right. exists job0. split; [apply list_elem_of_here | done].
    + rewrite lookup_insert_ne in H by done.
      destruct (m !! Job.Customer job0); [auto|].
      rewrite lookup_insert_ne in H by done. auto.
  - right. exists job. split; [by apply list_elem_of_further | done].
Qed.

Lemma storeEach_calls customerQueues queue field entries :
  selectQueue queue = Some field ->
  (forall customer list, (customer, list) ∈ entries ->
     is_Some (customerQueues !! customer)) ->
  exists tr,
    storeEach customerQueues queue entries = (tr, Ok tt) /\
    Forall2 (fun entry call =>
               exists cq, customerQueues !! fst entry = Some cq /\
                          call = (field cq, snd entry))
            entries (stores tr).
Proof.
  intros Hfield. induction entries as [|[customer list] entries IH]; intros Hreg; simpl.
  - exists []. split; [done | constructor].
  - destruct (Hreg customer list) as [cq Hcq]; [apply list_elem_of_here|].
    destruct IH as (tr & Hrest & Hcalls).
    { intros c l Hin. apply (Hreg c l). by apply list_elem_of_further. }
    unfold StoreJobsForCustomer, getQueueForCustomer.
    rewrite Hfield, Hcq. simpl. rewrite Hrest.
    eexists. split; [reflexivity|].
    simpl. constructor; [|done]. by exists cq.
Qed.

(** Three jobs of two customers, stored in the router queues, with
    the map visited in the order of [map_to_list]. *)
Example Store_sample :
  Store map_to_list sampleQueues
    [sampleJob 1 "workspaceID"; sampleJob 2 "tenant2"; sampleJob 3 "workspaceID"] "rt"
  = ([EvStore {| owner := "workspaceID"; tablePrefix := "rt" |}
        [sampleJob 1 "workspaceID"; sampleJob 3 "workspaceID"];
      EvStore {| owner := "tenant2"; tablePrefix := "rt" |}
        [sampleJob 2 "tenant2"]],
     Ok None).
Proof. vm_compute. reflexivity. Qed.

(** A customer that is not registered: the nil queue is read. *)
Example Store_unregistered :
  Store map_to_list sampleQueues [sampleJob 1 "nobody"] "gw"
  = ([], Panicked NilDereference).
Proof. vm_compute. reflexivity. Qed.

(** C10, as stated, fails for a queue name that [getQueueForCustomer]
    does not know: the customer of the job is registered, and [Store]
    panics instead of returning nil. *)
Lemma Store_unknown_queue :
  let job := sampleJob 1 "workspaceID" in
  is_Some (sampleQueues !! Job.Customer job) /\
  Store map_to_list sampleQueues [job] "foo"
  = ([], Panicked (PanicMsg "Unknow queue")).
Proof.
  split.
  - vm_compute. by eexists.
  - vm_compute. reflexivity.
Qed.

(** C10, amended. For every job list in which each job's [Customer]
    is registered in [customerQueues], and every queue name among
    gw, rt, batch_rt and proc_error, whatever the order in which the
    map of customers is visited: [Store] returns nil; its calls of
    [db.Store] carry, taken together, exactly the jobs of the list,
    each once; and every call goes to the queue of the requested
    type of one registered customer, with jobs of that customer
    only. *)
Theorem Store_by_customer range customerQueues jobList queue :
  (forall m : gmap string (list JobT), range m ≡ₚ map_to_list m) ->
  knownQueue queue ->
  (forall job, job ∈ jobList -> is_Some (customerQueues !! Job.Customer job)) ->
  exists tr field,
    Store range customerQueues jobList queue = (tr, Ok None) /\
    selectQueue queue = Some field /\
    concat (map snd (stores tr)) ≡ₚ jobList /\
    forall db list,
      (db, list) ∈ stores tr ->
      exists customer cq,
        customerQueues !! customer = Some cq /\
        db = field cq /\
        forall job, job ∈ list -> Job.Customer job = customer.
Proof.
  intros Hrange Hqueue Hreg.
  destruct (selectQueue_known queue Hqueue) as [field Hfield].
  set (m := groupByCustomer jobList ∅).
  assert (forall customer list, (customer, list) ∈ range m ->
            m !! customer = Some list) as Hentries.
  { intros customer list Hin. rewrite Hrange in Hin.
    by apply elem_of_map_to_list in Hin. }
  destruct (storeEach_calls customerQueues queue field (range m) Hfield)
    as (tr & Hrun & Hcalls).
  { intros customer list Hin. apply Hentries in Hin.
    destruct (groupByCustomer_keys jobList ∅ customer) as [H|(job & Hjob & <-)].
    - by eexists.
    - rewrite lookup_empty in H. by destruct H.
    - by apply Hreg. }
  exists tr, field. unfold Store. fold m. rewrite Hrun. simpl.
  split; [by rewrite app_nil_r|]. split; [done|]. split.
  - transitivity (jobsOf (range m)).
    + unfold jobsOf. clear -Hcalls.
      induction Hcalls as [|[c l] [db l'] ? ? (cq & _ & [= -> ->]) ? IH]; simpl;
        [done | by rewrite IH].
    + rewrite Hrange. unfold m. rewrite groupByCustomer_jobs.
      by rewrite map_to_list_empty.
  - intros db list Hin.
    apply list_elem_of_lookup in Hin as [i Hi].
    destruct (Forall2_lookup_r _ _ _ _ _ Hcalls Hi)
      as ([customer list'] & Hentry & cq & Hcq & [= -> ->]).
    exists customer, cq. split; [done|]. split; [done|].
    intros job Hjob.
    apply list_elem_of_lookup_2 in Hentry. apply Hentries in Hentry.
    eapply (groupByCustomer_customers jobList ∅); [|exact Hentry|exact Hjob].
    intros c l j. by rewrite lookup_empty.
Qed.

Lemma Store_by_customer_witness :
  let jobList :=
    [sampleJob 1 "workspaceID"; sampleJob 2 "tenant2"; sampleJob 3 "workspaceID"] in
  exists tr field,
    Store map_to_list sampleQueues jobList "rt" = (tr, Ok None) /\
    selectQueue "rt" = Some field /\
    concat (map snd (stores tr)) ≡ₚ jobList /\
    forall db list,
      (db, list) ∈ stores tr ->
      exists customer cq,
        sampleQueues !! customer = Some cq /\
        db = field cq /\
        forall job, job ∈ list -> Job.Customer job = customer.
Proof.
  intros jobList.
  apply (Store_by_customer map_to_list sampleQueues jobList "rt").
  - intros m. reflexivity.
  - right. left. reflexivity.
  - intros job Hjob. unfold jobList in Hjob.
    repeat (apply elem_of_cons in Hjob as [->|Hjob]; [vm_compute; by eexists|]).
    by apply elem_of_nil in Hjob.
Defined.

(** *** Registration and lookup of queues *)

Lemma SetupCustomerQueues_lookup customers : forall customerQueues customer,
  SetupCustomerQueues customers customerQueues !! customer =
  if decide (customer ∈ customers)
  then Some {| GatewayJobsdb := {| owner := customer; tablePrefix := "gw" |};
               RouterJobsdb := {| owner := customer; tablePrefix := "rt" |};
               BatchrouterJobsddb := {| owner := customer; tablePrefix := "batch_rt" |};
               ProcerrorJobsdb := {| owner := customer; tablePrefix := "proc_error" |} |}
  else customerQueues !! customer.
Proof.
  induction customers as [|c customers IH]; intros m customer;
    cbn [SetupCustomerQueues].
  - rewrite decide_False; [done|]. apply not_elem_of_nil.
  - rewrite IH. destruct (decide (customer ∈ customers)) as [Hin|Hout].
    + rewrite decide_True; [done|]. by apply list_elem_of_further.
    + destruct (decide (customer = c)) as [->|Hne].
      * rewrite lookup_insert_eq, decide_True; [done|]. apply list_elem_of_here.
      * rewrite lookup_insert_ne by done.
        rewrite decide_False; [done|]. rewrite elem_of_cons. tauto.
Qed.

(** X1. After [SetupCustomerQueues] has run for a list of customers,
    [getQueueForCustomer] with one of the four queue names returns,
    for a customer of the list, the handle set up for that customer
    with the queue name as table prefix; for any other customer it
    dereferences a nil pointer. *)
Theorem getQueueForCustomer_after_setup customers customer queue :
  knownQueue queue ->
  (customer ∈ customers ->
   getQueueForCustomer (SetupCustomerQueues customers ∅) customer queue
   = ([], Ok {| owner := customer; tablePrefix := queue |})) /\
  (customer ∉ customers ->
   getQueueForCustomer (SetupCustomerQueues customers ∅) customer queue
   = ([], Panicked NilDereference)).
Proof.
  intros Hqueue. unfold getQueueForCustomer.
  rewrite SetupCustomerQueues_lookup, lookup_empty.
  split; intros Hin.
  - rewrite decide_True by done.
    destruct Hqueue as [-> | [-> | [-> | ->]]]; reflexivity.
  - rewrite decide_False by done.
    destruct Hqueue as [-> | [-> | [-> | ->]]]; reflexivity.
Qed.

Lemma getQueueForCustomer_after_setup_witness :
  ("tenant2" ∈ ["workspaceID"; "tenant2"] ->
   getQueueForCustomer (SetupCustomerQueues ["workspaceID"; "tenant2"] ∅)
     "tenant2" "batch_rt"
   = ([], Ok {| owner := "tenant2"; tablePrefix := "batch_rt" |})) /\
  ("tenant2" ∉ ["workspaceID"; "tenant2"] ->
   getQueueForCustomer (SetupCustomerQueues ["workspaceID"; "tenant2"] ∅)
     "tenant2" "batch_rt"
   = ([], Panicked NilDereference)).
Proof.
  apply (getQueueForCustomer_after_setup ["workspaceID"; "tenant2"] "tenant2" "batch_rt").
  right. right. left. reflexivity.
Defined.

(** *** The outcome of [Store] *)

Lemma groupByCustomer_keeps jobList : forall customerJobListMap customer,
  is_Some (customerJobListMap !! customer) ->
  is_Some (groupByCustomer jobList customerJobListMap !! customer).
Proof.
  induction jobList as [|job jobList IH]; intros m customer Hsome; simpl; [done|].
  apply IH.
  destruct (decide (customer = Job.Customer job)) as [->|Hne].
  - rewrite lookup_insert_eq. by eexists.
  - rewrite lookup_insert_ne by done.
    destruct (m !! Job.Customer job); [done|]. by rewrite lookup_insert_ne.
Qed.

Lemma groupByCustomer_has jobList : forall customerJobListMap job,
  job ∈ jobList ->
  is_Some (groupByCustomer jobList customerJobListMap !! Job.Customer job).
Proof.
  induction jobList as [|job0 jobList IH]; intros m job Hin; simpl.
  - by apply elem_of_nil in Hin.
  - apply elem_of_cons in Hin as [->|Hin]; [|by apply IH].
    apply groupByCustomer_keeps. rewrite lookup_insert_eq. by eexists.
Qed.

Lemma storeEach_unregistered customerQueues queue field entries customer list :
  selectQueue queue = Some field ->
  (customer, list) ∈ entries ->
  customerQueues !! customer = None ->
  snd (storeEach customerQueues queue entries) = Panicked NilDereference.
Proof.
  intros Hfield Hin Hnone.
  induction entries as [|[c l] entries IH]; [by apply elem_of_nil in Hin|].
  simpl. unfold StoreJobsForCustomer, getQueueForCustomer. rewrite Hfield.
  destruct (customerQueues !! c) as [cq|] eqn:Hc; simpl; [|done].
  apply elem_of_cons in Hin as [[= -> ->]|Hin]; [congruence|].
  specialize (IH Hin). by destruct (storeEach customerQueues queue entries).
Qed.

(** X2. With one of the four queue names, and whatever the order in
    which the map of customers is visited, [Store] returns nil exactly
    when the customer of every job is registered in [customerQueues];
    otherwise it panics on the nil queues of an unregistered
    customer. *)
Theorem Store_returns_iff_registered range customerQueues jobList queue :
  (forall m : gmap string (list JobT), range m ≡ₚ map_to_list m) ->
  knownQueue queue ->
  (snd (Store range customerQueues jobList queue) = Ok None <->
   forall job, job ∈ jobList -> is_Some (customerQueues !! Job.Customer job)) /\
  (snd (Store range customerQueues jobList queue) = Ok None \/
   snd (Store range customerQueues jobList queue) = Panicked NilDereference).
Proof.
  intros Hrange Hqueue.
  destruct (selectQueue_known queue Hqueue) as [field Hfield].
  set (m := groupByCustomer jobList ∅).
  assert (forall customer list, (customer, list) ∈ range m ->
            m !! customer = Some list) as Hentries.
  { intros customer list Hin. rewrite Hrange in Hin.
    by apply elem_of_map_to_list in Hin. }
  destruct (decide (Forall (fun job => is_Some (customerQueues !! Job.Customer job))
                      jobList)) as [Hall|Hsome].
  - rewrite Forall_forall in Hall.
    destruct (storeEach_calls customerQueues queue field (range m) Hfield)
      as (tr & Hrun & _).
    { intros customer list Hin. apply Hentries in Hin.
      destruct (groupByCustomer_keys jobList ∅ customer) as [H|(job & Hjob & <-)].
      - by eexists.
      - rewrite lookup_empty in H. by destruct H.
      - by apply Hall. }
    unfold Store. fold m. rewrite Hrun. simpl. split; [|by left].
    split; [intros _ job Hin; by apply Hall | done].
  - apply not_Forall_Exists in Hsome; [|apply _].
    apply Exists_exists in Hsome as (job & Hjob & Hnone).
    assert (customerQueues !! Job.Customer job = None) as Hnone'.
    { simpl in Hnone.
      destruct (customerQueues !! Job.Customer job) as [cq|] eqn:Hcq; [|done].
      exfalso. apply Hnone. by eexists. }
    destruct (groupByCustomer_has jobList ∅ job Hjob) as [list Hlist].
    assert ((Job.Customer job, list) ∈ range m) as Hin.
    { rewrite Hrange. by apply elem_of_map_to_list. }
    pose proof (storeEach_unregistered _ _ _ _ _ _ Hfield Hin Hnone') as Hpanic.
    unfold Store. fold m.
    destruct (storeEach customerQueues queue (range m)) as [tr r]. simpl in *.
    subst r. simpl. split; [|by right].
    split; [done|]. intros Hall. specialize (Hall job Hjob).
    rewrite Hnone' in Hall. by destruct Hall.
Qed.

Lemma Store_returns_iff_registered_witness :
  let jobList := [sampleJob 1 "workspaceID"; sampleJob 2 "nobody"] in
  (snd (Store map_to_list sampleQueues jobList "gw") = Ok None <->
   forall job, job ∈ jobList -> is_Some (sampleQueues !! Job.Customer job)) /\
  (snd (Store map_to_list sampleQueues jobList "gw") = Ok None \/
   snd (Store map_to_list sampleQueues jobList "gw") = Panicked NilDereference).
Proof.
  intros jobList.
  apply (Store_returns_iff_registered map_to_list sampleQueues jobList "gw").
  - intros m. reflexivity.
  - left. reflexivity.
Defined.

Lemma range_empty {A} (range : gmap string A -> list (string * A)) :
  (forall m, range m ≡ₚ map_to_list m) -> range ∅ = [].
Proof.
  intros Hrange. apply Permutation_nil_r. by rewrite Hrange, map_to_list_empty.
Qed.

(** X3. [Store] of an empty job list calls no queue and returns nil,
    whatever the queue name and the registered customers; with a
    queue name that [getQueueForCustomer] does not know, [Store] of a
    non-empty list panics before any job is stored. *)
Theorem Store_empty_or_unknown_queue range customerQueues jobList queue :
  (forall m : gmap string (list JobT), range m ≡ₚ map_to_list m) ->
  (jobList = [] -> Store range customerQueues jobList queue = ([], Ok None)) /\
  (jobList <> [] -> ~ knownQueue queue ->
   Store range customerQueues jobList queue
   = ([], Panicked (PanicMsg "Unknow queue"))).
Proof.
  intros Hrange. split.
  - intros ->. unfold Store. simpl. by rewrite (range_empty range Hrange).
  - intros Hne Hunknown. apply selectQueue_unknown in Hunknown.
    destruct jobList as [|job jobList]; [done|].
    destruct (groupByCustomer_has (job :: jobList) ∅ job) as [list Hlist];
      [apply list_elem_of_here|].
    unfold Store.
    destruct (range (groupByCustomer (job :: jobList) ∅)) as [|[c l] entries] eqn:Hr.
    + exfalso. apply elem_of_map_to_list in Hlist. rewrite <- Hrange, Hr in Hlist.
      by apply elem_of_nil in Hlist.
    + cbn [storeEach bind]. unfold StoreJobsForCustomer, getQueueForCustomer.
      by rewrite Hunknown.
Qed.

Lemma Store_empty_or_unknown_queue_witness :
  let jobList := [sampleJob 1 "workspaceID"] in
  (jobList = [] -> Store map_to_list sampleQueues jobList "warehouse" = ([], Ok None)) /\
  (jobList <> [] -> ~ knownQueue "warehouse" ->
   Store map_to_list sampleQueues jobList "warehouse"
   = ([], Panicked (PanicMsg "Unknow queue"))).
Proof.
  intros jobList.
  apply (Store_empty_or_unknown_queue map_to_list sampleQueues jobList "warehouse").
  intros m. reflexivity.
Defined.

(** *** [GetCustomerList] *)

Lemma customerListLoop_lookup jobList : forall customerListMap customer,
  customerListLoop jobList customerListMap !! customer =
  match customerListMap !! customer with
  | Some n => Some n
  | None => if decide (customer ∈ customersOf jobList) then Some 0 else None
  end.
Proof.
  induction jobList as [|job jobList IH]; intros m customer;
    cbn [customerListLoop].
  - rewrite decide_False by apply not_elem_of_nil. by destruct (m !! customer).
  - rewrite IH. unfold customersOf. cbn [map].
    destruct (decide (customer = Job.Customer job)) as [->|Hne].
    + destruct (m !! Job.Customer job) as [n|] eqn:Hm.
      * by rewrite Hm.
      * rewrite lookup_insert_eq. rewrite decide_True; [done|]. apply list_elem_of_here.
    + assert (match m !! Job.Customer job with
              | Some _ => m
              | None => <[Job.Customer job := 0]> m
              end !! customer = m !! customer) as ->.
      { destruct (m !! Job.Customer job); [done|]. by rewrite lookup_insert_ne. }
      destruct (m !! customer); [done|].
      destruct (decide (customer ∈ map Job.Customer jobList)) as [Hin|Hout].
      * rewrite decide_True; [done|]. by apply list_elem_of_further.
      * rewrite decide_False; [done|]. rewrite elem_of_cons. tauto.
Qed.

(** X4. The map that [GetCustomerList] returns has exactly the
    customers of the jobs of the list as keys, each with the value 0,
    however often a customer occurs. *)
Theorem GetCustomerList_keys jobList customer :
  (is_Some (GetCustomerList jobList !! customer) <->
   exists job, job ∈ jobList /\ Job.Customer job = customer) /\
  (forall n, GetCustomerList jobList !! customer = Some n -> n = 0).
Proof.
  unfold GetCustomerList. rewrite customerListLoop_lookup, lookup_empty.
  unfold customersOf.
  destruct (decide (customer ∈ map Job.Customer jobList)) as [Hin|Hout].
  - split; [|by intros n [= <-]]. split; [intros _|by eexists].
    rewrite list_elem_of_In in Hin. apply in_map_iff in Hin as (job & <- & Hin).
    exists job. by rewrite list_elem_of_In.
  - split; [|done]. split; [by intros [? ?]|].
    intros (job & Hin & <-). exfalso. apply Hout.
    rewrite list_elem_of_In. apply in_map. by rewrite <- list_elem_of_In.
Qed.

(** *** [MergeMaps] *)

Lemma mergeEntries_union entries : forall result,
  NoDup (entries.*1) ->
  mergeEntries entries result = list_to_map entries ∪ result.
Proof.
  induction entries as [|[k v] entries IH]; intros result Hnd.
  - simpl. by rewrite (left_id_L ∅ (∪)).
  - rewrite fmap_cons in Hnd. apply NoDup_cons in Hnd as [Hk Hnd].
    cbn [mergeEntries]. rewrite IH by done.
    rewrite list_to_map_cons, <- insert_union_l. symmetry. apply insert_union_r.
    by apply not_elem_of_list_to_map_1.
Qed.

Lemma mergeEntries_range (range : gmap string string -> list (string * string)) m result :
  (forall m, range m ≡ₚ map_to_list m) ->
  mergeEntries (range m) result = m ∪ result.
Proof.
  intros Hrange.
  assert (NoDup ((range m).*1)) as Hnd.
  { rewrite Hrange. apply NoDup_fst_map_to_list. }
  rewrite mergeEntries_union by done. f_equal.
  rewrite <- (list_to_map_to_list m) at 2.
  apply list_to_map_proper; [done | apply Hrange].
Qed.

Lemma mergeLoop_lookup_None range maps k : forall result,
  (forall m, range m ≡ₚ map_to_list m) ->
  mergeLoop range maps result !! k = None <->
  result !! k = None /\ forall m, m ∈ maps -> m !! k = None.
Proof.
  induction maps as [|m maps IH]; intros result Hrange; simpl.
  - split; [|tauto]. intros H. split; [done|]. intros m Hin. by apply elem_of_nil in Hin.
  - rewrite IH by done. rewrite mergeEntries_range by done.
    rewrite lookup_union_None. split.
    + intros [[Hm Hr] Hmaps]. split; [done|].
      intros m' [->|Hin]%elem_of_cons; [done | by apply Hmaps].
    + intros [Hr Hmaps]. split; [split; [|done]|].
      * apply Hmaps, list_elem_of_here.
      * intros m' Hin. by apply Hmaps, list_elem_of_further.
Qed.

Lemma mergeLoop_app range maps1 maps2 result :
  mergeLoop range (maps1 ++ maps2) result
  = mergeLoop range maps2 (mergeLoop range maps1 result).
Proof.
  revert result. induction maps1 as [|m maps1 IH]; intros result; simpl; [done|].
  apply IH.
Qed.

Lemma mergeLoop_untouched range maps k : forall result,
  (forall m, range m ≡ₚ map_to_list m) ->
  (forall m, m ∈ maps -> m !! k = None) ->
  mergeLoop range maps result !! k = result !! k.
Proof.
  induction maps as [|m maps IH]; intros result Hrange Hnone; simpl; [done|].
  rewrite IH; [|done|].
  - rewrite mergeEntries_range by done.
    rewrite lookup_union_r; [done|]. apply Hnone, list_elem_of_here.
  - intros m' Hin. by apply Hnone, list_elem_of_further.
Qed.

(** Two queues report an error for the same job: the later map wins. *)
Example MergeMaps_sample :
  MergeMaps map_to_list
    [{[ "u1" := "timeout"; "u2" := "too large" ]}; {[ "u2" := "invalid json" ]}]
  = {[ "u1" := "timeout"; "u2" := "invalid json" ]}.
Proof. vm_compute. reflexivity. Qed.

(** X5. Whatever the order in which Go iterates over each map,
    [MergeMaps] returns a map that has a key exactly when one of the
    given maps has it, with the value of the last of the given maps
    that has the key. *)
Theorem MergeMaps_last_wins range maps k :
  (forall m : gmap string string, range m ≡ₚ map_to_list m) ->
  (MergeMaps range maps !! k = None <-> forall m, m ∈ maps -> m !! k = None) /\
  (forall before m after v,
     maps = before ++ m :: after ->
     m !! k = Some v ->
     (forall m', m' ∈ after -> m' !! k = None) ->
     MergeMaps range maps !! k = Some v).
Proof.
  intros Hrange. unfold MergeMaps. split.
  - rewrite mergeLoop_lookup_None by done. rewrite lookup_empty. tauto.
  - intros before m after v -> Hm Hafter.
    rewrite mergeLoop_app. simpl.
    rewrite mergeLoop_untouched by done.
    rewrite mergeEntries_range by done.
    by apply lookup_union_Some_l.
Qed.

Lemma MergeMaps_last_wins_witness :
  let maps : list (gmap string string) :=
    [{[ "u1" := "timeout"; "u2" := "too large" ]}; {[ "u2" := "invalid json" ]}] in
  (MergeMaps map_to_list maps !! "u2" = None <-> forall m, m ∈ maps -> m !! "u2" = None) /\
  (forall before m after v,
     maps = before ++ m :: after ->
     m !! "u2" = Some v ->
     (forall m', m' ∈ after -> m' !! "u2" = None) ->
     MergeMaps map_to_list maps !! "u2" = Some v).
Proof.
  intros maps. apply (MergeMaps_last_wins map_to_list maps "u2").
  intros m. reflexivity.
Defined.

(** *** [StoreWithRetryEach] and [DeleteExecuting] *)

Lemma retryCalls_app tr1 tr2 : retryCalls (tr1 ++ tr2) = retryCalls tr1 ++ retryCalls tr2.
Proof. unfold retryCalls. apply omap_app. Qed.

Lemma retryEach_as_storeEach answer customerQueues queue field entries :
  selectQueue queue = Some field ->
  (forall customer list, (customer, list) ∈ entries ->
     is_Some (customerQueues !! customer)) ->
  forall maps, exists tr,
    retryEach answer customerQueues queue entries maps
    = (tr, Ok (maps ++ map (fun c => answer (fst c) (snd c)) (retryCalls tr))) /\
    retryCalls tr = stores (fst (storeEach customerQueues queue entries)).
Proof.
  intros Hfield. induction entries as [|[customer list] entries IH]; intros Hreg maps.
  - exists []. simpl. by rewrite app_nil_r.
  - destruct (Hreg customer list) as [cq Hcq]; [apply list_elem_of_here|].
    destruct (IH (fun c l Hin => Hreg c l (list_elem_of_further _ _ _ Hin))
                (maps ++ [answer (field cq) list])) as (tr & Hrun & Hcalls).
    exists (CallStoreWithRetryEach (field cq) list :: tr).
    cbn [retryEach storeEach]. unfold queueFor, StoreJobsForCustomer, getQueueForCustomer.
    rewrite Hfield, Hcq. simpl. rewrite Hrun. simpl.
    split.
    + by rewrite <- app_assoc.
    + rewrite Hcalls. by destruct (storeEach customerQueues queue entries).
Qed.

(** Two customers, of which the second one's queue reports an error. *)
Example StoreWithRetryEach_sample :
  let answer := fun (db : JobsDB) (list : list JobT) =>
    if String.eqb (owner db) "tenant2"
    then ({[ "2f548e6d-60f6-44af-a1f4-62b3272445c3" := "duplicate" ]} : gmap string string)
    else ∅ in
  StoreWithRetryEach map_to_list map_to_list answer sampleQueues
    [sampleJob 1 "workspaceID"; sampleJob 2 "tenant2"] "proc_error"
  = ([CallStoreWithRetryEach {| owner := "workspaceID"; tablePrefix := "proc_error" |}
        [sampleJob 1 "workspaceID"];
      CallStoreWithRetryEach {| owner := "tenant2"; tablePrefix := "proc_error" |}
        [sampleJob 2 "tenant2"]],
     Ok {[ "2f548e6d-60f6-44af-a1f4-62b3272445c3" := "duplicate" ]}).
Proof. vm_compute. reflexivity. Qed.

Lemma storeEach_stores customerQueues queue field entries :
  selectQueue queue = Some field ->
  (forall customer list, (customer, list) ∈ entries ->
     is_Some (customerQueues !! customer)) ->
  stores (fst (storeEach customerQueues queue entries)) =
  omap (fun entry => cq ← customerQueues !! fst entry; Some (field cq, snd entry)) entries.
Proof.
  intros Hfield. induction entries as [|[customer list] entries IH]; intros Hreg; [done|].
  destruct (Hreg customer list) as [cq Hcq]; [apply list_elem_of_here|].
  specialize (IH (fun c l Hin => Hreg c l (list_elem_of_further _ _ _ Hin))).
  cbn [storeEach omap list_omap]. unfold StoreJobsForCustomer, getQueueForCustomer.
  rewrite Hfield. simpl. rewrite Hcq. simpl. rewrite <- IH.
  by destruct (storeEach customerQueues queue entries).
Qed.

(** X6. For a job list whose customers are all registered and one of
    the four queue names, [StoreWithRetryEach] calls
    [StoreWithRetryEach] on the same queues with the same job lists
    as [Store] calls [Store], each call once; Go draws the order of
    the customers anew for each of the two loops, so the two orders
    may differ. It returns the [MergeMaps] of the error maps that its
    calls answer, in the order of its calls. *)
Theorem StoreWithRetryEach_dispatches_as_Store
    range range' rangeErrors answer customerQueues jobList queue :
  (forall m : gmap string (list JobT), range m ≡ₚ map_to_list m) ->
  (forall m : gmap string (list JobT), range' m ≡ₚ map_to_list m) ->
  knownQueue queue ->
  (forall job, job ∈ jobList -> is_Some (customerQueues !! Job.Customer job)) ->
  exists tr,
    StoreWithRetryEach range rangeErrors answer customerQueues jobList queue
    = (tr, Ok (MergeMaps rangeErrors
                 (map (fun c => answer (fst c) (snd c)) (retryCalls tr)))) /\
    retryCalls tr ≡ₚ stores (fst (Store range' customerQueues jobList queue)).
Proof.
  intros Hrange Hrange' Hqueue Hreg.
  destruct (selectQueue_known queue Hqueue) as [field Hfield].
  set (m := groupByCustomer jobList ∅).
  assert (Hkeys : forall customer list,
            (customer, list) ∈ map_to_list m -> is_Some (customerQueues !! customer)).
  { intros customer list Hin.
    apply elem_of_map_to_list in Hin.
    destruct (groupByCustomer_keys jobList ∅ customer) as [H|(job & Hjob & <-)].
    - by eexists.
    - rewrite lookup_empty in H. by destruct H.
    - by apply Hreg. }
  destruct (retryEach_as_storeEach answer customerQueues queue field (range m) Hfield)
    with (maps := @nil (gmap string string)) as (tr & Hrun & Hcalls).
  { intros customer list Hin. rewrite Hrange in Hin. by eapply Hkeys. }
  exists tr. unfold StoreWithRetryEach, Store. fold m. rewrite Hrun. simpl.
  split; [by rewrite app_nil_r|].
  rewrite Hcalls.
  assert (Hfst : fst (bind (storeEach customerQueues queue (range' m))
                        (fun _ => ret (E := event) (@None string)))
                 = fst (storeEach customerQueues queue (range' m))).
  { rewrite fst_bind.
    destruct (snd (storeEach customerQueues queue (range' m))); simpl; apply app_nil_r. }
  rewrite Hfst.
  rewrite !(storeEach_stores _ _ field) by
    (first [done | intros customer list Hin;
                   first [rewrite Hrange in Hin | rewrite Hrange' in Hin];
                   by eapply Hkeys]).
  by rewrite Hrange, Hrange'.
Qed.

Lemma StoreWithRetryEach_dispatches_as_Store_witness :
  let answer := fun (db : JobsDB) (list : list JobT) => (∅ : gmap string string) in
  let jobList := [sampleJob 1 "workspaceID"; sampleJob 2 "tenant2"] in
  let range' := fun m : gmap string (list JobT) => reverse (map_to_list m) in
  exists tr,
    StoreWithRetryEach map_to_list map_to_list answer sampleQueues jobList "proc_error"
    = (tr, Ok (MergeMaps map_to_list
                 (map (fun c => answer (fst c) (snd c)) (retryCalls tr)))) /\
    retryCalls tr ≡ₚ stores (fst (Store range' sampleQueues jobList "proc_error")).
Proof.
  intros answer jobList range'.
  apply (StoreWithRetryEach_dispatches_as_Store map_to_list range' map_to_list answer
           sampleQueues jobList "proc_error").
  - intros m. reflexivity.
  - intros m. apply reverse_Permutation.
  - right. right. right. reflexivity.
  - intros job Hjob. unfold jobList in Hjob.
    repeat (apply elem_of_cons in Hjob as [->|Hjob]; [vm_compute; by eexists|]).
    by apply elem_of_nil in Hjob.
Defined.

Lemma deleteEach_registered customerQueues params queueType field entries :
  selectQueue queueType = Some field ->
  (forall customer cq, (customer, cq) ∈ entries ->
     customerQueues !! customer = Some cq) ->
  deleteEach customerQueues params queueType (map fst entries)
  = (map (fun entry => CallDeleteExecuting (field (snd entry)) params) entries, Ok tt).
Proof.
  intros Hfield. induction entries as [|[customer cq] entries IH]; intros Hreg; [done|].
  cbn [map fst deleteEach]. unfold queueFor, getQueueForCustomer.
  rewrite Hfield, (Hreg customer cq) by apply list_elem_of_here. simpl.
  rewrite IH; [done|]. intros c q Hin. apply Hreg. by apply list_elem_of_further.
Qed.

(** X7. [DeleteExecuting] with one of the four queue names calls
    [DeleteExecuting], with the parameters it was given, once on the
    queue of that type of every registered customer and on no other
    queue, and returns; it never reads a nil queue. With no customer
    registered it does nothing, whatever the queue name; with a
    customer registered and an unknown queue name it panics before
    any call. *)
Theorem DeleteExecuting_every_customer range customerQueues params queueType :
  (forall m : gmap string CustomerQueue, range m ≡ₚ map_to_list m) ->
  (knownQueue queueType ->
   exists field,
     selectQueue queueType = Some field /\
     DeleteExecuting range customerQueues params queueType
     = (map (fun entry => CallDeleteExecuting (field (snd entry)) params)
          (range customerQueues), Ok tt)) /\
  (customerQueues = ∅ ->
   DeleteExecuting range customerQueues params queueType = ([], Ok tt)) /\
  (customerQueues <> ∅ -> ~ knownQueue queueType ->
   DeleteExecuting range customerQueues params queueType
   = ([], Panicked (PanicMsg "Unknow queue"))).
Proof.
  intros Hrange. unfold DeleteExecuting. split; [|split].
  - intros Hqueue. destruct (selectQueue_known queueType Hqueue) as [field Hfield].
    exists field. split; [done|].
    apply deleteEach_registered; [done|].
    intros customer cq Hin. rewrite Hrange in Hin. by apply elem_of_map_to_list in Hin.
  - intros ->. by rewrite (range_empty range Hrange).
  - intros Hne Hunknown. apply selectQueue_unknown in Hunknown.
    destruct (range customerQueues) as [|[customer cq] entries] eqn:Hr.
    + exfalso. apply Hne. apply map_to_list_empty_iff.
      apply Permutation_nil_r. by rewrite <- Hrange, Hr.
    + cbn [map fst deleteEach]. unfold queueFor, getQueueForCustomer.
      by rewrite Hunknown.
Qed.

Lemma DeleteExecuting_every_customer_witness :
  let params := {| Jobsdb.CustomValFilters := []; Jobsdb.IgnoreCustomValFiltersInQuery := false;
                   Jobsdb.JobsLimit := 0; Jobsdb.PayloadSizeLimit := 0 |} in
  (knownQueue "rt" ->
   exists field,
     selectQueue "rt" = Some field /\
     DeleteExecuting map_to_list sampleQueues params "rt"
     = (map (fun entry => CallDeleteExecuting (field (snd entry)) params)
          (map_to_list sampleQueues), Ok tt)) /\
  (sampleQueues = ∅ ->
   DeleteExecuting map_to_list sampleQueues params "rt" = ([], Ok tt)) /\
  (sampleQueues <> ∅ -> ~ knownQueue "rt" ->
   DeleteExecuting map_to_list sampleQueues params "rt"
   = ([], Panicked (PanicMsg "Unknow queue"))).
Proof.
  intros params.
  apply (DeleteExecuting_every_customer map_to_list sampleQueues params "rt").
  intros m. reflexivity.
Defined.

End DatamanagerFacts.

(** ** Expired jobs in the router *)
Module RouterFacts.
Import Jobsdb Router.

Local Abbreviation lastAttempt job := (JobStatus.AttemptNum (Job.LastJobStatus job)).










(** The router test: the job created in April 2020 is read in June
    2022 with a retention of 24 hours. It is drained with state
    [Aborted], code 410 and attempt number 0, the adapter is not
    called, and the pickup returns 0. *)
Example aborts_events_older_than_retention :
  let now := 1656000000 * 1000 * 1000 * 1000 in
  readAndProcess now testJobRetention [testJob] =
  ([EvUpdateJobStatus [];
    EvStoreProcError [testJob];
    EvUpdateJobStatusInTx
      [JobStatus.mk 2010 Aborted 0 now now "410"
         ("{" +:+ dq +:+ "reason" +:+ dq +:+ ": " +:+ dq +:+ "job expired" +:+ dq +:+ "}")
         "{}" "workspace"]],
   Ok 0).
Proof. reflexivity. Qed.



End RouterFacts.
